(** * tinysid.h: the string-id preprocessor and its hash

    A shallow embedding of [djb2], [tsSkipWhite_internal], [tsNext_internal]
    and [tsPreprocess] of tinysid.h, and the properties of the written
    specification stated over it.

    Conventions of the embedding.
    - A C [char] is an [ascii] (eight bits); a pointer into a block is the
      block (a list) and an offset (a [nat]); [*p] is a lookup that is
      undefined outside the block.
    - [unsigned] and [int] are 32 bits wide; an [unsigned] is a [Z] in
      [0, 2^32) and every operation on it is followed by its wrap-around.
    - Whether plain [char] is signed is left to the target ([Abi]).
    - [isspace] and [isalnum] are those of the C locale, taken on the
      value in [0, 256) of the byte; they hold of no byte above 127.
    - The loops are functions with fuel; each is given more fuel than it
      has bytes left to read, which is enough ([tsPreprocess_fuel_enough]).
    - The output block is written through a cursor.  Stores are not
      trapped: the embedding records how far the stores reached ([peak]),
      so that staying inside the block is a property of a run and not a
      premise of what the run computes ([in_block]).
    - The size of a file is a [nat]; [tsPreprocess_int] is the call with
      [size * 2] computed in [int], undefined when it overflows. *)

From Stdlib Require Import ZArith Lia.
From Stdlib Require Import Ascii.
From stdpp Require Import base list strings gmap.

Local Open Scope Z_scope.
Local Open Scope nat_scope.

(** ** Characters *)

Definition NUL : ascii := "000"%char.
Definition DQUOTE : ascii := Ascii.ascii_of_nat 34.
Definition BACKSLASH : ascii := "\"%char.
Definition LPAREN : ascii := "("%char.
Definition RPAREN : ascii := ")"%char.

Definition code (c : ascii) : nat := Ascii.nat_of_ascii c.

(** [isspace] in the C locale: space, and the controls \t \n \v \f \r. *)
Definition isspace (c : ascii) : bool :=
  (code c =? 32) || ((9 <=? code c) && (code c <=? 13)).

(** [isalnum] in the C locale: a decimal digit or an ASCII letter. *)
Definition isalnum (c : ascii) : bool :=
  ((48 <=? code c) && (code c <=? 57))
  || ((65 <=? code c) && (code c <=? 90))
  || ((97 <=? code c) && (code c <=? 122)).

Definition is_nul (c : ascii) : bool := bool_decide (c = NUL).

(** The bytes of a string constant. *)
Fixpoint chars (s : string) : list ascii :=
  match s with
  | EmptyString => []
  | String c s' => c :: chars s'
  end.

(** ** Results of code that can leave the defined behaviour of C *)

Inductive fault :=
| ReadOutOfBounds        (* a load outside the input block *)
| IndeterminateOutput    (* bytes never stored are handed to fwrite *)
| IntOverflow.           (* [size * 2] is no value of [int] *)

Inductive res (A : Type) :=
| Ok (a : A)
| Undefined (f : fault)
| OutOfFuel.
Arguments Ok {A} a.
Arguments Undefined {A} f.
Arguments OutOfFuel {A}.

Definition res_bind {A B} (m : res A) (k : A → res B) : res B :=
  match m with
  | Ok a => k a
  | Undefined f => Undefined f
  | OutOfFuel => OutOfFuel
  end.

Global Instance res_ret : MRet res := @Ok.
Global Instance res_mbind : MBind res := λ A B k m, res_bind m k.

(** [*p] for [p = block + i]. *)
Definition load (block : list ascii) (i : nat) : res ascii :=
  match block !! i with
  | Some c => Ok c
  | None => Undefined ReadOutOfBounds
  end.

(** ** The target *)

Class Abi := { char_signed : bool }.

(** Plain [char] is signed on x86 and x86-64, unsigned on Arm Linux. *)
Definition x86_64 : Abi := {| char_signed := true |}.
Definition aarch64 : Abi := {| char_signed := false |}.

(** ** djb2 *)

Definition wrap32 (z : Z) : Z := (z mod 2 ^ 32)%Z.

(** The value in [0, 256) of the byte. *)
Definition byte_value (c : ascii) : Z := Z.of_nat (code c).

Section Hash.
Context {abi : Abi}.

(** [c = *str]: the conversion of a [char] to [int]. *)
Definition int_of_char (c : ascii) : Z :=
  if char_signed && (128 <=? byte_value c)%Z
  then (byte_value c - 256)%Z
  else byte_value c.

(** [h = ((h << 5) + h) + c], on [unsigned]; the [int] [c] is converted
    to [unsigned] by the usual arithmetic conversions. *)
Definition djb2_step (h : Z) (c : ascii) : Z :=
  wrap32 (wrap32 (wrap32 (Z.shiftl h 5) + h) + wrap32 (int_of_char c)).

Fixpoint djb2_loop (fuel : nat) (mem : list ascii) (h : Z) (str end_ : nat)
  : res Z :=
  match fuel with
  | 0 => OutOfFuel
  | S fuel' =>
      if decide (str = end_) then Ok h
      else
        c ← load mem str;
        djb2_loop fuel' mem (djb2_step h c) (S str) end_
  end.

(** [unsigned djb2( char* str, char* end )], both pointers into [mem]. *)
Definition djb2 (mem : list ascii) (str end_ : nat) : res Z :=
  djb2_loop (S (S (length mem - str))) mem 5381%Z str end_.



End Hash.

(** ** The output block *)

(** A cell of the block returned by [malloc] holds no value until it is
    stored to. *)
Definition cell := option ascii.

(** [cells] is the block from [outOriginal] up to the write cursor [out];
    [peak] is the least offset above every cell stored to so far. *)
Record outbuf := { cells : list cell; peak : nat }.

Definition out_start : outbuf := {| cells := []; peak := 0 |}.

(** [*out++ = c] *)
Definition putc (c : ascii) (o : outbuf) : outbuf :=
  {| cells := cells o ++ [Some c];
     peak := peak o `max` S (length (cells o)) |}.

(** [sprintf( out, ... )] storing [text] and its terminating NUL at the
    cursor, followed by [out += n].  When [n] passes what was stored, the
    cursor moves over the NUL and then over cells no store has reached. *)
Definition print_advance (text : list ascii) (n : nat) (o : outbuf) : outbuf :=
  let stored := Some <$> (text ++ [NUL]) in
  {| cells := cells o ++ take n (stored ++ replicate (n - length stored) None);
     peak := peak o `max` (length (cells o) + length stored) |}.

(** ** The scanner *)

Section Scanner.
Context {abi : Abi}.
Variable buf : list ascii.   (* the input block: the file and a NUL *)

(** [while ( test( *data ) ) *out++ = *data++;], the loop of
    [tsSkipWhite_internal] (with [isspace]) and the last loop of
    [tsNext_internal] (with [isalnum]). *)
Fixpoint tsCopyWhile_loop (test : ascii → bool) (fuel : nat) (data : nat)
  (out : outbuf) : res (nat * outbuf) :=
  match fuel with
  | 0 => OutOfFuel
  | S fuel' =>
      c ← load buf data;
      if test c then tsCopyWhile_loop test fuel' (S data) (putc c out)
      else Ok (data, out)
  end.

(** [static void tsSkipWhite_internal( char** dataPtr, char** outPtr )] *)
Definition tsSkipWhite_internal (data : nat) (out : outbuf)
  : res (nat * outbuf) :=
  tsCopyWhile_loop isspace (S (length buf - data)) data out.

(** How the loop over [match = "SID("] is left. *)
Inductive match_exit :=
| MatchBreak (matched : bool) (data index : nat)
| MatchEnd (data : nat).   (* [goto return_result] on a NUL *)

(** The inner [while ( 1 )] of [tsNext_internal]; [pat] is what is left
    of [match] from [index] on, and [match[ index ]] is 0 exactly when
    [pat] is empty. *)
Fixpoint tsMatch_loop (pat : list ascii) (data index : nat) : res match_exit :=
  match pat with
  | [] => Ok (MatchBreak true data index)
  | m :: pat' =>
      c ← load buf data;
      if is_nul c then Ok (MatchEnd data)
      else if decide (c = m) then tsMatch_loop pat' (S data) (S index)
      else Ok (MatchBreak false data index)
  end.

(** [while ( isalnum( *data ) ) *out++ = *data++;] *)
Definition tsCopyAlnum (data : nat) (out : outbuf) : res (nat * outbuf) :=
  tsCopyWhile_loop isalnum (S (length buf - data)) data out.

(** The outer [while ( 1 )] of [tsNext_internal]. *)
Fixpoint tsNext_loop (fuel : nat) (data : nat) (out : outbuf)
  : res (Z * nat * outbuf) :=
  match fuel with
  | 0 => OutOfFuel
  | S fuel' =>
      c ← load buf data;
      if is_nul c then Ok (0%Z, data, out)
      else
        '(data, out) ← tsSkipWhite_internal data out;
        c ← load buf data;
        if is_nul c then Ok (0%Z, data, out)
        else if negb (isalnum c) then tsNext_loop fuel' (S data) (putc c out)
        else
          e ← tsMatch_loop (chars "SID(") data 0;
          match e with
          | MatchEnd data => Ok (0%Z, data, out)
          | MatchBreak matched data index =>
              let data := data - index in
              if matched then Ok (1%Z, data, out)
              else
                '(data, out) ← tsCopyAlnum data out;
                tsNext_loop fuel' data out
          end
  end.

(** [static int tsNext_internal( char** dataPtr, char** outPtr )] *)
Definition tsNext_internal (data : nat) (out : outbuf)
  : res (Z * nat * outbuf) :=
  tsNext_loop (S (length buf - data)) data out.
End Scanner.

(** ** printf *)

Definition hex_digit (n : Z) : ascii :=
  if (n <? 10)%Z then Ascii.ascii_of_nat (48 + Z.to_nat n)
  else Ascii.ascii_of_nat (97 + Z.to_nat (n - 10)).

(** [%.8x] of an [unsigned]: it has at most eight hexadecimal digits, and
    the precision pads them with zeros to eight; digit [i] counts from the
    least significant one. *)
Definition nibble (h : Z) (i : nat) : Z :=
  Z.land (Z.shiftr h (4 * Z.of_nat i)) 15.

Definition hex8 (h : Z) : list ascii :=
  (λ i, hex_digit (nibble h i)) <$> [7; 6; 5; 4; 3; 2; 1; 0].

(** The characters [%s] prints from a block: those before the first NUL. *)
Fixpoint until_nul (s : list ascii) : list ascii :=
  match s with
  | [] => []
  | c :: s' => if is_nul c then [] else c :: until_nul s'
  end.

(** [%.*s] with precision [bytes] and argument [block + data]. *)
Definition printf_s (block : list ascii) (bytes data : nat) : list ascii :=
  until_nul (take bytes (drop data block)).

(** The text of ["0x%.8x /* \"%.*s\" */"]. *)
Definition sid_text (h : Z) (printed : list ascii) : list ascii :=
  chars "0x" ++ hex8 h ++ chars " /* " ++ [DQUOTE] ++ printed
    ++ [DQUOTE] ++ chars " */".

(** What [printf] reports; each message names the file. *)
Inductive message :=
| CouldNotOpen (path : string)
| OnlyStrings (path : string)
| MissingParen (path : string) (near : list ascii).

Definition names_file (m : message) (path : string) : Prop :=
  match m with
  | CouldNotOpen p | OnlyStrings p | MissingParen p _ => p = path
  end.

(** ** tsPreprocess *)

Section Preprocess.
Context {abi : Abi}.
Variable buf : list ascii.
Variable path : string.

(** [while ( isspace( *data ) ) data++;] *)
Fixpoint tsSpaces_loop (fuel : nat) (data : nat) : res nat :=
  match fuel with
  | 0 => OutOfFuel
  | S fuel' =>
      c ← load buf data;
      if isspace c then tsSpaces_loop fuel' (S data) else Ok data
  end.

Definition tsSpaces (data : nat) : res nat :=
  tsSpaces_loop (S (length buf - data)) data.

(** The [while ( 1 )] that looks for the closing quote. *)
Fixpoint tsLiteral_loop (fuel : nat) (ptr : nat) : res nat :=
  match fuel with
  | 0 => OutOfFuel
  | S fuel' =>
      c ← load buf ptr;
      if decide (c = BACKSLASH) then tsLiteral_loop fuel' (ptr + 2)
      else if decide (c = DQUOTE) then Ok ptr
      else tsLiteral_loop fuel' (S ptr)
  end.

Definition tsLiteral (ptr : nat) : res nat :=
  tsLiteral_loop (S (length buf - ptr)) ptr.

(** One pass through the body of the [while] of [tsPreprocess], entered
    with [data] at the trigger: it leaves the function with a message
    ([inl]), or goes back to the test of the loop ([inr]). *)
Definition tsBody (data : nat) (out : outbuf)
  : res (message + nat * outbuf) :=
  let data := data + 4 in
  data ← tsSpaces data;
  c ← load buf data;
  if decide (c ≠ DQUOTE) then Ok (inl (OnlyStrings path))
  else
    let data := S data in
    ptr ← tsLiteral data;
    h ← djb2 buf data ptr;
    let bytes := ptr - data in
    let out := print_advance (sid_text h (printf_s buf bytes data))
                             (19 + bytes) out in
    let data := ptr + 1 in
    data ← tsSpaces data;
    c ← load buf data;
    if decide (c ≠ RPAREN)
    then Ok (inl (MissingParen path (until_nul (drop data buf))))
    else Ok (inr (data + 1, out)).

(** The output block when the body of the loop is left, by a [return] or
    to the test of the loop: the body stores nothing before the test for
    the opening quote, and [sprintf] has stored before the test for the
    closing parenthesis. *)
Definition tsBody_stores (data : nat) (out : outbuf) : res outbuf :=
  let data := data + 4 in
  data ← tsSpaces data;
  c ← load buf data;
  if decide (c ≠ DQUOTE) then Ok out
  else
    let data := S data in
    ptr ← tsLiteral data;
    h ← djb2 buf data ptr;
    let bytes := ptr - data in
    Ok (print_advance (sid_text h (printf_s buf bytes data))
                      (19 + bytes) out).

(** The [while ( tsNext_internal( &data, &out ) )] of [tsPreprocess]. *)
Fixpoint tsPreprocess_loop (fuel : nat) (data : nat) (out : outbuf)
  (fileWasModified : bool) : res (message + outbuf * bool) :=
  match fuel with
  | 0 => OutOfFuel
  | S fuel' =>
      '(found, data, out) ← tsNext_internal buf data out;
      if decide (found = 0%Z) then Ok (inr (out, fileWasModified))
      else
        let fileWasModified := true in
        r ← tsBody data out;
        match r with
        | inl m => Ok (inl m)
        | inr (data, out) =>
            tsPreprocess_loop fuel' data out fileWasModified
        end
  end.
End Preprocess.

(** [malloc( size * 2 )] *)
Definition capacity (content : list ascii) : nat := length content * 2.

(** The block [data] of [tsPreprocess]: the file and [data[ size ] = 0]. *)
Definition input_block (content : list ascii) : list ascii := content ++ [NUL].

(** The run of [tsPreprocess] over the bytes of the file at [path], from
    the first [tsNext_internal] to the test of [fileWasModified]. *)
Definition tsScan `{Abi} (path : string) (content : list ascii)
  : res (message + outbuf * bool) :=
  let buf := input_block content in
  tsPreprocess_loop buf path (S (length buf)) 0 out_start false.

(** The bytes [fwrite] receives: the cells below the cursor. *)
Definition written (o : outbuf) : res (list ascii) :=
  match mapM id (cells o) with
  | Some bytes => Ok bytes
  | None => Undefined IndeterminateOutput
  end.

(** What a call leaves behind: the value returned, the files, and what was
    printed. *)
Record effect := {
  returned : Z;
  files : gmap string (list ascii);
  printed : list message
}.

(** [int tsPreprocess( const char* path, const char* out_path )] over the
    files [fs].  [fopen( out_path, "wb" )] is taken to succeed. *)
Definition tsPreprocess `{Abi} (fs : gmap string (list ascii))
  (path out_path : string) : res effect :=
  match fs !! path with
  | None =>
      Ok {| returned := 0; files := fs; printed := [CouldNotOpen path] |}
  | Some content =>
      r ← tsScan path content;
      match r return res effect with
      | inl m => Ok {| returned := 0; files := fs; printed := [m] |}
      | inr (out, fileWasModified) =>
          if fileWasModified : bool then
            bytes ← written out;
            Ok {| returned := 1; files := <[out_path := bytes]> fs;
                  printed := [] |}
          else Ok {| returned := 0; files := fs; printed := [] |}
      end
  end.

(** ** The type int and the block of malloc *)

Definition INT_MAX : Z := 2147483647.

(** [int size = ftell( fp )] and [malloc( size * 2 )]: the size of the
    file and its double are values of [int]. *)
Definition int_size (content : list ascii) : Prop :=
  (Z.of_nat (length content) * 2 ≤ INT_MAX)%Z.

#[global] Instance int_size_dec content : Decision (int_size content).
Proof. unfold int_size. apply _. Defined.

(** [tsPreprocess] with [size * 2] computed in [int]: for a file of 2^30
    bytes or more the multiplication overflows, which C leaves undefined;
    for a smaller file the call is [tsPreprocess]. *)
Definition tsPreprocess_int `{Abi} (fs : gmap string (list ascii))
  (path out_path : string) : res effect :=
  match fs !! path with
  | None => tsPreprocess fs path out_path
  | Some content =>
      if decide (int_size content) then tsPreprocess fs path out_path
      else Undefined IntOverflow
  end.

(** Every store of a run that leaves the output block as [o] went to a
    cell of the block of [malloc( size * 2 )]. *)
Definition in_block (content : list ascii) (o : outbuf) : Prop :=
  peak o ≤ capacity content.

(** ** The vocabulary of the specification *)

(** The hash as the specification words it: a left fold from 5381 of
    [acc * 33 + c] modulo 2^32, [c] being what [value] makes of a byte. *)
Definition hash_fold (value : ascii → Z) (s : list ascii) : Z :=
  fold_left (λ acc c, ((acc * 33 + value c) mod 2 ^ 32)%Z) s 5381%Z.

(** The bytes of the range [[start, end_)] of a block. *)
Definition range (block : list ascii) (start end_ : nat) : list ascii :=
  take (end_ - start) (drop start block).

(** A run of stores [*out++ = c], one for each byte of [s]. *)
Definition puts (s : list ascii) (o : outbuf) : outbuf :=
  foldl (λ o c, putc c o) o s.

(** The bytes between the quotes of a string literal: bytes other than a
    backslash and a double quote, and pairs of a backslash and any byte. *)
Inductive raw_literal : list ascii → Prop :=
| raw_nil : raw_literal []
| raw_byte c s :
    c ≠ BACKSLASH → c ≠ DQUOTE → raw_literal s → raw_literal (c :: s)
| raw_pair c s :
    raw_literal s → raw_literal (BACKSLASH :: c :: s).


(** The trigger occurs nowhere in the file. *)
Definition no_trigger (content : list ascii) : Prop :=
  ∀ pre post, content ≠ pre ++ chars "SID(" ++ post.

(** The replacement as the specification words it: 0x, the eight digits,
    a space, the comment opener, a space, a double quote, the literal
    bytes, a double quote, a space, the comment closer. *)
Definition replacement (h : Z) (literal : list ascii) : list ascii :=
  chars "0x" ++ hex8 h ++ chars " " ++ chars "/*" ++ chars " " ++ [DQUOTE]
    ++ literal ++ [DQUOTE] ++ chars " " ++ chars "*/".

Definition lower_hex (c : ascii) : Prop :=
  (48 ≤ code c ≤ 57) ∨ (97 ≤ code c ≤ 102).

(** The number a string of lowercase hexadecimal digits denotes. *)
Definition hex_digit_value (c : ascii) : Z :=
  if code c <=? 57 then Z.of_nat (code c - 48) else Z.of_nat (code c - 87).

Definition hex_value (s : list ascii) : Z :=
  fold_left (λ acc c, (acc * 16 + hex_digit_value c)%Z) s 0%Z.

Section Reach.
Context {abi : Abi}.
Variable buf : list ascii.
Variable path : string.

(** The states in which the test of the [while] of [tsPreprocess] is
    evaluated: read offset, output and [fileWasModified]. *)
Inductive loop_head : nat → outbuf → bool → Prop :=
| head_entry : loop_head 0 out_start false
| head_again data out m p out1 data' out' :
    loop_head data out m →
    tsNext_internal buf data out = Ok (1%Z, p, out1) →
    tsBody buf path p out1 = Ok (inr (data', out')) →
    loop_head data' out' true.

(** [tsNext_internal] reports a trigger at offset [p] to [tsPreprocess],
    which enters the body of its loop with output [out]. *)
Definition triggered (p : nat) (out : outbuf) : Prop :=
  ∃ data out0 m,
    loop_head data out0 m ∧ tsNext_internal buf data out0 = Ok (1%Z, p, out).

(** No alphanumeric byte precedes offset [d]. *)
Definition boundary (d : nat) : Prop :=
  ∀ c, 0 < d → buf !! (d - 1) = Some c → isalnum c = false.

(** The block holds [s] at offset [d]. *)
Definition holds (d : nat) (s : list ascii) : Prop :=
  ∃ rest, drop d buf = s ++ rest.
End Reach.

(** ** What the loops of the scanner establish *)

Section Postconditions.
Variable content : list ascii.
Local Abbreviation buf := (input_block content).

(** What the loop over the pattern leaves, entered at offset [d] with
    index [idx]. *)
Definition match_post (pat : list ascii) (d idx : nat) (e : match_exit)
  : Prop :=
  match e with
  | MatchBreak true d' idx' =>
      d' = d + length pat ∧ idx' = idx + length pat ∧ holds buf d pat
      ∧ d' ≤ length content
  | MatchBreak false d' idx' =>
      ∃ k, k < length pat ∧ d' = d + k ∧ idx' = idx + k
  | MatchEnd d' =>
      ∃ k, k < length pat ∧ d' = d + k ∧ d' ≤ length content
  end.

(** Where the outer loop of [tsNext_internal] can stand: no alphanumeric
    byte before the offset, or none at it. *)
Definition scan_point (d : nat) : Prop :=
  boundary buf d ∨ ∃ c, buf !! d = Some c ∧ isalnum c = false.

(** What [tsNext_internal] returns, entered at offset [d] with output
    [o]: it has copied a prefix of what it read, all of it when it
    reports a trigger. *)
Definition next_post (d : nat) (o : outbuf) (r : Z * nat * outbuf) : Prop :=
  let '(found, d', o') := r in
  d ≤ d' ≤ length content
  ∧ ∃ k, o' = puts (take k (drop d buf)) o ∧ k ≤ d' - d
    ∧ (found = 0%Z
       ∨ (found = 1%Z ∧ k = d' - d ∧ holds buf d' (chars "SID(")
          ∧ d' + 4 ≤ length content
          ∧ (scan_point d → boundary buf d'))).
End Postconditions.

(** An invocation with its trigger at offset [p] is malformed: after the
    trigger and optional whitespace comes no double quote, or after the
    literal and optional whitespace comes no closing parenthesis. *)
Definition malformed (buf : list ascii) (p : nat) : Prop :=
  (∃ ws c rest,
      drop (p + 4) buf = ws ++ c :: rest
      ∧ Forall (λ c, isspace c = true) ws ∧ isspace c = false
      ∧ c ≠ DQUOTE)
  ∨ (∃ ws1 lit ws2 c rest,
      drop (p + 4) buf = ws1 ++ DQUOTE :: lit ++ DQUOTE :: ws2 ++ c :: rest
      ∧ Forall (λ c, isspace c = true) ws1 ∧ raw_literal lit
      ∧ Forall (λ c, isspace c = true) ws2 ∧ isspace c = false
      ∧ c ≠ RPAREN).

(** Whether the trigger occurs in a file. *)
Fixpoint has_trigger (content : list ascii) : bool :=
  match content with
  | [] => false
  | _ :: content' =>
      bool_decide (take 4 content = chars "SID(") || has_trigger content'
  end.

(** A file that is one statement holding one invocation,
    x = SID("literal"); *)
Definition statement (literal : list ascii) : list ascii :=
  chars "x = SID(" ++ DQUOTE :: literal ++ DQUOTE :: chars ");".

(** ** Files of well-formed invocations *)

(** Text between invocations: it holds no NUL and no trigger, and it does
    not end in an alphanumeric byte. *)
Definition gap (s : list ascii) : Prop :=
  Forall (λ c, c ≠ NUL) s ∧ no_trigger s
  ∧ ∀ c, last s = Some c → isalnum c = false.

(** An invocation as it stands in a file: the trigger, whitespace, the
    bytes between the quotes, whitespace, the closing parenthesis. *)
Record invocation := {
  inv_lead : list ascii;
  inv_literal : list ascii;
  inv_trail : list ascii
}.

Definition invocation_text (i : invocation) : list ascii :=
  chars "SID(" ++ inv_lead i ++ DQUOTE :: inv_literal i
    ++ DQUOTE :: inv_trail i ++ [RPAREN].

(** The invocation is one the preprocessor takes: whitespace only around
    the literal, and a literal without a NUL. *)
Definition well_formed (i : invocation) : Prop :=
  Forall (λ c, isspace c = true) (inv_lead i)
  ∧ Forall (λ c, isspace c = true) (inv_trail i)
  ∧ raw_literal (inv_literal i) ∧ Forall (λ c, c ≠ NUL) (inv_literal i).

(** A file as a sequence of invocations, each after some text, and the
    text behind the last. *)
Fixpoint source (pieces : list (list ascii * invocation))
  (rest : list ascii) : list ascii :=
  match pieces with
  | [] => rest
  | (g, i) :: pieces' => g ++ invocation_text i ++ source pieces' rest
  end.

(** The same file with every invocation replaced. *)
Fixpoint rewritten `{Abi} (pieces : list (list ascii * invocation))
  (rest : list ascii) : list ascii :=
  match pieces with
  | [] => rest
  | (g, i) :: pieces' =>
      g ++ replacement (hash_fold int_of_char (inv_literal i))
                       (inv_literal i)
        ++ rewritten pieces' rest
  end.

(** * Properties *)

(** ** Characters and loads *)

Lemma isspace_not_nul c : isspace c = true → c ≠ NUL.
Proof. intros H ->. discriminate H. Qed.

Lemma isalnum_not_nul c : isalnum c = true → c ≠ NUL.
Proof. intros H ->. discriminate H. Qed.

Lemma is_nul_true c : is_nul c = true ↔ c = NUL.
Proof. unfold is_nul. apply bool_decide_eq_true. Qed.

Lemma is_nul_false c : is_nul c = false ↔ c ≠ NUL.
Proof. unfold is_nul. apply bool_decide_eq_false. Qed.

Lemma byte_value_range c : (0 ≤ byte_value c < 256)%Z.
Proof.
  unfold byte_value, code. pose proof (Ascii.nat_ascii_bounded c). lia.
Qed.

Lemma load_Ok block i c : load block i = Ok c ↔ block !! i = Some c.
Proof.
  unfold load. destruct (block !! i); split; intros E; congruence.
Qed.

Lemma drop_lookup_cons (block : list ascii) i c :
  block !! i = Some c → drop i block = c :: drop (S i) block.
Proof.
  revert i. induction block as [|x block IH]; intros [|i] E; simplify_eq/=; auto.
Qed.

Lemma drop_cons_lookup (block : list ascii) i c rest :
  drop i block = c :: rest → block !! i = Some c ∧ drop (S i) block = rest.
Proof.
  revert i. induction block as [|x block IH]; intros [|i] E; simplify_eq/=; auto.
Qed.

Lemma drop_app_shift (block : list ascii) i s rest :
  drop i block = s ++ rest → drop (i + length s) block = rest.
Proof.
  revert i. induction s as [|c s IH]; intros i E; simpl in *.
  - by rewrite Nat.add_0_r.
  - apply drop_cons_lookup in E as [_ E]. apply IH in E.
    by replace (i + S (length s)) with (S i + length s) by lia.
Qed.

(** ** The input block *)

Section Block.
Variable content : list ascii.
Local Abbreviation buf := (input_block content).

Lemma block_length : length buf = S (length content).
Proof. unfold input_block. rewrite length_app. simpl. lia. Qed.

Lemma block_lookup d : d ≤ length content → ∃ c, buf !! d = Some c.
Proof.
  intros Hd. apply lookup_lt_is_Some. rewrite block_length. lia.
Qed.

Lemma block_lookup_nonnul d c :
  buf !! d = Some c → c ≠ NUL → d < length content.
Proof.
  intros E Hc. pose proof (lookup_lt_Some _ _ _ E) as Hlt.
  rewrite block_length in Hlt.
  destruct (decide (d = length content)) as [->|]; [|lia].
  unfold input_block in E.
  rewrite lookup_app_r, Nat.sub_diag in E by lia. simpl in E. congruence.
Qed.

Lemma block_lookup_le d c : buf !! d = Some c → d ≤ length content.
Proof.
  intros E. pose proof (lookup_lt_Some _ _ _ E) as Hlt.
  rewrite block_length in Hlt. lia.
Qed.
End Block.

(** ** djb2 *)

Section HashFacts.
Context {abi : Abi}.

Lemma djb2_step_arith h c :
  djb2_step h c = ((h * 33 + int_of_char c) mod 2 ^ 32)%Z.
Proof.
  unfold djb2_step, wrap32. rewrite Z.shiftl_mul_pow2 by lia.
  rewrite <- Z.add_mod by lia.
  rewrite <- Z.add_assoc, Z.add_mod_idemp_l by lia.
  f_equal. lia.
Qed.

Lemma int_of_char_low c :
  (byte_value c < 128)%Z → int_of_char c = byte_value c.
Proof.
  intros H. unfold int_of_char.
  destruct (128 <=? byte_value c)%Z eqn:E; [lia|]. by rewrite andb_false_r.
Qed.

Lemma djb2_loop_range fuel mem h str s rest :
  drop str mem = s ++ rest → length s < fuel →
  djb2_loop fuel mem h str (str + length s) = Ok (fold_left djb2_step s h).
Proof.
  revert h str s. induction fuel as [|fuel IH]; intros h str s E Hf; [lia|].
  simpl. destruct s as [|c s]; simpl in *.
  - rewrite decide_True by lia. done.
  - rewrite decide_False by lia.
    apply drop_cons_lookup in E as [Hc E].
    apply load_Ok in Hc. rewrite Hc. simpl.
    replace (str + S (length s)) with (S str + length s) by lia.
    apply IH; [done | lia].
Qed.

Lemma fold_djb2_step s h :
  fold_left djb2_step s h
  = fold_left (λ acc c, ((acc * 33 + int_of_char c) mod 2 ^ 32)%Z) s h.
Proof.
  revert h. induction s as [|c s IH]; intros h; simpl; [done|].
  by rewrite IH, djb2_step_arith.
Qed.

Lemma djb2_range mem str end_ :
  str ≤ end_ ≤ length mem →
  djb2 mem str end_ = Ok (fold_left djb2_step (range mem str end_) 5381%Z).
Proof.
  intros [H1 H2]. unfold djb2, range.
  pose proof (take_drop (end_ - str) (drop str mem)) as E.
  symmetry in E. pose proof (djb2_loop_range (S (S (length mem - str))) mem
    5381%Z str _ _ E) as L.
  rewrite length_take, length_drop in L.
  replace (str + (end_ - str) `min` (length mem - str)) with end_ in L by lia.
  apply L. lia.
Qed.

Lemma djb2_bound mem str end_ h :
  djb2 mem str end_ = Ok h → (0 ≤ h < 2 ^ 32)%Z.
Proof.
  unfold djb2. generalize (S (S (length mem - str))). intros fuel.
  assert (0 ≤ 5381 < 2 ^ 32)%Z as H0 by lia. revert H0.
  generalize 5381%Z. intros h0. revert h0 str.
  induction fuel as [|fuel IH]; intros h0 str H0 E; simpl in E; [done|].
  destruct (decide (str = end_)); [by simplify_eq|].
  destruct (load mem str) as [c| |]; simpl in E; try done.
  eapply IH; [|exact E]. unfold djb2_step, wrap32.
  apply Z.mod_pos_bound. lia.
Qed.
End HashFacts.

Lemma hash_fold_ext (f g : ascii → Z) s :
  Forall (λ c, f c = g c) s → hash_fold f s = hash_fold g s.
Proof.
  unfold hash_fold. generalize 5381%Z.
  induction s as [|c s IH]; intros h Hs; simpl; [done|].
  inversion Hs as [|? ? Hc Hs']; subst. rewrite Hc. by apply IH.
Qed.

(** ** The scanner *)

(** ** Stores *)

Lemma puts_cons c s o : puts (c :: s) o = puts s (putc c o).
Proof. done. Qed.

Lemma puts_app s1 s2 o : puts (s1 ++ s2) o = puts s2 (puts s1 o).
Proof. unfold puts. apply foldl_app. Qed.

Lemma puts_cells s o : cells (puts s o) = cells o ++ (Some <$> s).
Proof.
  revert o. induction s as [|c s IH]; intros o.
  - simpl. by rewrite app_nil_r.
  - rewrite puts_cons, IH. simpl. by rewrite <- app_assoc.
Qed.

Lemma puts_length s o : length (cells (puts s o)) = length (cells o) + length s.
Proof. by rewrite puts_cells, length_app, length_fmap. Qed.

Lemma puts_peak s o :
  peak (puts s o) ≤ peak o `max` (length (cells o) + length s).
Proof.
  revert o. induction s as [|c s IH]; intros o; [simpl; lia|].
  rewrite puts_cons. etrans; [apply IH|]. simpl.
  rewrite length_app. simpl. lia.
Qed.

Lemma print_advance_peak text n o :
  peak (print_advance text n o)
  = peak o `max` (length (cells o) + S (length text)).
Proof.
  unfold print_advance. cbn [peak].
  rewrite length_fmap, length_app. simpl. do 2 f_equal. lia.
Qed.

Lemma take_drop_split (l : list ascii) d a b :
  take (a + b) (drop d l) = take a (drop d l) ++ take b (drop (d + a) l).
Proof. by rewrite <- take_take_drop, drop_drop. Qed.

Section ScannerFacts.
Context {abi : Abi}.
Variable content : list ascii.
Local Abbreviation buf := (input_block content).

Lemma tsCopyWhile_loop_spec test fuel d o :
  test NUL = false → d ≤ length content → length content - d < fuel →
  ∃ n, tsCopyWhile_loop buf test fuel d o
       = Ok (d + n, puts (take n (drop d buf)) o)
     ∧ d + n ≤ length content
     ∧ Forall (λ c, test c = true) (take n (drop d buf))
     ∧ ∃ c, buf !! (d + n) = Some c ∧ test c = false.
Proof.
  intros Hnul. revert d o.
  induction fuel as [|fuel IH]; intros d o Hd Hf; [lia|].
  destruct (block_lookup content d Hd) as [c Hc].
  simpl. rewrite (proj2 (load_Ok _ _ _) Hc). simpl.
  destruct (test c) eqn:Ht.
  - assert (c ≠ NUL) as Hn by (intros ->; congruence).
    pose proof (block_lookup_nonnul _ _ _ Hc Hn) as Hlt.
    destruct (IH (S d) (putc c o)) as (n & E & Hle & Hall & Hstop); [lia..|].
    exists (S n). rewrite (drop_lookup_cons _ _ _ Hc). simpl.
    replace (d + S n) with (S d + n) by lia.
    split; [done|]. split; [lia|]. split; [by constructor | done].
  - exists 0. rewrite Nat.add_0_r, take_0. simpl.
    split; [done|]. split; [lia|]. split; [constructor | eauto].
Qed.

Lemma tsMatch_loop_spec pat d idx :
  d ≤ length content →
  ∃ e, tsMatch_loop buf pat d idx = Ok e ∧ match_post content pat d idx e.
Proof.
  revert d idx. induction pat as [|m pat IH]; intros d idx Hd.
  - exists (MatchBreak true d idx). simpl.
    split; [done|]. repeat split; try lia. by exists (drop d buf).
  - destruct (block_lookup content d Hd) as [c Hc].
    simpl. rewrite (proj2 (load_Ok _ _ _) Hc). simpl.
    destruct (is_nul c) eqn:Hn.
    { exists (MatchEnd d). split; [done|]. exists 0. simpl. lia. }
    apply is_nul_false in Hn.
    pose proof (block_lookup_nonnul _ _ _ Hc Hn) as Hlt.
    destruct (decide (c = m)) as [->|Hne].
    + destruct (IH (S d) (S idx)) as (e & E & He); [lia|].
      exists e. split; [done|].
      destruct e as [[|] d' idx'|d']; simpl in *.
      * destruct He as (-> & -> & [rest Hr] & Hle).
        repeat split; try lia. exists rest.
        by rewrite (drop_lookup_cons _ _ _ Hc), Hr.
      * destruct He as (k & ? & -> & ->). exists (S k). lia.
      * destruct He as (k & ? & -> & ?). exists (S k). lia.
    + exists (MatchBreak false d idx). split; [done|].
      exists 0. simpl. lia.
Qed.

Lemma isspace_not_alnum c : isspace c = true → isalnum c = false.
Proof.
  unfold isspace, isalnum. generalize (code c). intros n H.
  rewrite orb_true_iff, andb_true_iff, Nat.eqb_eq, !Nat.leb_le in H.
  rewrite !orb_false_iff, !andb_false_iff, !Nat.leb_gt. lia.
Qed.

Lemma tsNext_loop_S fuel data out :
  tsNext_loop buf (S fuel) data out
  = (c ← load buf data;
     if is_nul c then Ok (0%Z, data, out)
     else
       '(data, out) ← tsSkipWhite_internal buf data out;
       c ← load buf data;
       if is_nul c then Ok (0%Z, data, out)
       else if negb (isalnum c)
            then tsNext_loop buf fuel (S data) (putc c out)
       else
         e ← tsMatch_loop buf (chars "SID(") data 0;
         match e with
         | MatchEnd data => Ok (0%Z, data, out)
         | MatchBreak matched data index =>
             let data := data - index in
             if matched then Ok (1%Z, data, out)
             else
               '(data, out) ← tsCopyAlnum buf data out;
               tsNext_loop buf fuel data out
         end).
Proof. done. Qed.

Local Arguments tsMatch_loop : simpl never.
Local Arguments tsCopyWhile_loop : simpl never.
Local Arguments tsNext_loop : simpl never.
Local Arguments chars : simpl never.

Lemma tsNext_loop_spec fuel d o :
  d ≤ length content → length content - d < fuel →
  ∃ r, tsNext_loop buf fuel d o = Ok r ∧ next_post content d o r.
Proof.
  revert d o. induction fuel as [|fuel IH]; intros d o Hd Hf; [lia|].
  destruct (block_lookup content d Hd) as [c Hc].
  rewrite tsNext_loop_S, (proj2 (load_Ok _ _ _) Hc). simpl.
  destruct (is_nul c) eqn:Hn.
  { exists (0%Z, d, o). split; [done|]. split; [lia|].
    exists 0. rewrite take_0. repeat split; [lia | by left]. }
  apply is_nul_false in Hn.
  pose proof (block_lookup_nonnul _ _ _ Hc Hn) as Hlt.
  unfold tsSkipWhite_internal.
  destruct (tsCopyWhile_loop_spec isspace (S (length buf - d)) d o)
    as (n & -> & Hn1 & Hsp & c1 & Hc1 & Hc1s);
    [done | lia | rewrite block_length; lia |].
  simpl. rewrite (proj2 (load_Ok _ _ _) Hc1). simpl.
  set (o1 := puts (take n (drop d buf)) o).
  destruct (is_nul c1) eqn:Hn1'.
  { exists (0%Z, d + n, o1). split; [done|]. split; [lia|].
    exists n. repeat split; [lia | by left]. }
  apply is_nul_false in Hn1'.
  pose proof (block_lookup_nonnul _ _ _ Hc1 Hn1') as Hlt1.
  destruct (isalnum c1) eqn:Hal; simpl.
  - destruct (tsMatch_loop_spec (chars "SID(") (d + n) 0) as (e & -> & He);
      [lia|].
    simpl. destruct e as [[|] d2 idx2|d2]; simpl in He;
      change (length (chars "SID(")) with 4 in He.
    + destruct He as (-> & -> & Hh & Hle). simpl.
      replace (d + n + 4 - 4) with (d + n) by lia.
      exists (1%Z, d + n, o1). split; [done|]. split; [lia|].
      exists n. split; [done|]. split; [lia|]. right.
      split; [done|]. split; [lia|]. split; [done|]. split; [lia|].
      intros Hsp0 c' Hpos Hc'.
      destruct (decide (n = 0)) as [->|Hn0].
      * rewrite Nat.add_0_r in *. destruct Hsp0 as [Hb|(c2 & Hc2 & Hal2)].
        -- by apply Hb.
        -- congruence.
      * apply isspace_not_alnum.
        apply (Forall_lookup_1 _ _ (n - 1) c' Hsp).
        rewrite lookup_take_lt, lookup_drop by lia.
        replace (d + (n - 1)) with (d + n - 1) by lia. exact Hc'.
    + destruct He as (k & Hk & -> & ->). simpl.
      replace (d + n + k - k) with (d + n) by lia.
      unfold tsCopyAlnum.
      destruct (tsCopyWhile_loop_spec isalnum (S (length buf - (d + n)))
                  (d + n) o1)
        as (n2 & -> & Hn2 & Hal2 & c3 & Hc3 & Hc3a);
        [done | lia | rewrite block_length; lia |].
      simpl.
      assert (n2 ≠ 0) as Hn20.
      { intros ->. rewrite Nat.add_0_r in Hc3. congruence. }
      destruct (IH (d + n + n2) (puts (take n2 (drop (d + n) buf)) o1))
        as ([[found d'] o'] & -> & Hd' & k' & -> & Hk' & Hf'); [lia..|].
      exists (found, d', puts (take k' (drop (d + n + n2) buf))
                           (puts (take n2 (drop (d + n) buf)) o1)).
      split; [done|]. split; [lia|].
      exists (n + n2 + k'). split.
      { unfold o1.
        rewrite (take_drop_split _ d (n + n2) k'), (take_drop_split _ d n n2).
        rewrite !puts_app.
        by replace (d + (n + n2)) with (d + n + n2) by lia. }
      split; [lia|]. destruct Hf' as [->|(-> & -> & Hh & Hle & Hb)].
      * by left.
      * right. split; [done|]. split; [lia|]. split; [done|].
        split; [done|]. intros _. apply Hb. right. eauto.
    + destruct He as (k & Hk & -> & Hle).
      exists (0%Z, d + n + k, o1). split; [done|]. split; [lia|].
      exists n. repeat split; [lia | by left].
  - destruct (IH (S (d + n)) (putc c1 o1))
      as ([[found d'] o'] & -> & Hd' & k' & -> & Hk' & Hf'); [lia..|].
    exists (found, d', puts (take k' (drop (S (d + n)) buf)) (putc c1 o1)).
    split; [done|]. split; [lia|].
    exists (n + 1 + k'). split.
    { unfold o1.
      rewrite (take_drop_split _ d (n + 1) k'), (take_drop_split _ d n 1).
      rewrite !puts_app.
      replace (d + (n + 1)) with (S (d + n)) by lia.
      f_equal. by rewrite (drop_lookup_cons _ _ _ Hc1). }
    split; [lia|]. destruct Hf' as [->|(-> & -> & Hh & Hle & Hb)].
    * by left.
    * right. split; [done|]. split; [lia|]. split; [done|].
      split; [done|]. intros _. apply Hb. left.
      intros c' _ Hc'. simpl in Hc'. rewrite Nat.sub_0_r in Hc'. congruence.
Qed.
End ScannerFacts.

(** ** The body of the loop *)

Lemma range_cons (block : list ascii) p q c :
  block !! p = Some c → p < q → range block p q = c :: range block (S p) q.
Proof.
  intros Hc Hlt. unfold range. rewrite (drop_lookup_cons _ _ _ Hc).
  by replace (q - p) with (S (q - S p)) by lia.
Qed.

Lemma range_nil (block : list ascii) p : range block p p = [].
Proof. unfold range. by rewrite Nat.sub_diag. Qed.

Lemma range_holds (block : list ascii) p s rest :
  drop p block = s ++ rest → range block p (p + length s) = s.
Proof.
  intros E. unfold range. rewrite E.
  replace (p + length s - p) with (length s) by lia.
  by rewrite take_app_length.
Qed.

Lemma until_nul_id s : Forall (λ c, c ≠ NUL) s → until_nul s = s.
Proof.
  induction 1 as [|c s Hc _ IH]; simpl; [done|].
  apply is_nul_false in Hc. by rewrite Hc, IH.
Qed.

Lemma until_nul_length s : length (until_nul s) ≤ length s.
Proof.
  induction s as [|c s IH]; simpl; [done|].
  destruct (is_nul c); simpl; lia.
Qed.

Lemma sid_text_length h s : length (sid_text h s) = 19 + length s.
Proof. unfold sid_text. rewrite !length_app. simpl. lia. Qed.

Lemma print_advance_exact text o :
  cells (print_advance text (length text) o) = cells o ++ (Some <$> text).
Proof.
  unfold print_advance. simpl. f_equal.
  rewrite fmap_app, <- app_assoc, take_app_length'; [done|].
  by rewrite length_fmap.
Qed.

Lemma print_advance_length text n o :
  length (cells (print_advance text n o)) = length (cells o) + n.
Proof.
  unfold print_advance. simpl.
  rewrite length_app, length_take, length_app, length_replicate. lia.
Qed.

Section BodyFacts.
Context {abi : Abi}.
Variable buf : list ascii.
Variable path : string.

(** *** From the shape of the input to the result *)

Lemma tsSpaces_loop_shape fuel d ws c rest :
  drop d buf = ws ++ c :: rest →
  Forall (λ c, isspace c = true) ws → isspace c = false →
  length ws < fuel →
  tsSpaces_loop buf fuel d = Ok (d + length ws).
Proof.
  revert d ws. induction fuel as [|fuel IH]; intros d ws E Hws Hc Hf; [lia|].
  simpl. destruct ws as [|w ws]; simpl in *.
  - apply drop_cons_lookup in E as [Hd _].
    rewrite (proj2 (load_Ok _ _ _) Hd). simpl. rewrite Hc.
    by rewrite Nat.add_0_r.
  - apply drop_cons_lookup in E as [Hd E].
    rewrite (proj2 (load_Ok _ _ _) Hd). simpl.
    inversion Hws as [|? ? Hw Hws']; subst. rewrite Hw.
    rewrite (IH (S d) ws); [f_equal; lia | done.. | lia].
Qed.

Lemma tsSpaces_shape d ws c rest :
  drop d buf = ws ++ c :: rest →
  Forall (λ c, isspace c = true) ws → isspace c = false →
  tsSpaces buf d = Ok (d + length ws).
Proof.
  intros E Hws Hc. unfold tsSpaces.
  eapply tsSpaces_loop_shape; [exact E | done..|].
  apply (f_equal length) in E.
  rewrite length_drop, length_app in E. simpl in E. lia.
Qed.

Lemma tsLiteral_loop_shape fuel p lit rest :
  raw_literal lit →
  drop p buf = lit ++ DQUOTE :: rest → length lit < fuel →
  tsLiteral_loop buf fuel p = Ok (p + length lit).
Proof.
  intros Hraw. revert fuel p.
  induction Hraw as [|c s Hb Hq _ IH|c s _ IH]; intros fuel p E Hf;
    (destruct fuel as [|fuel]; [simpl in Hf; lia|]); simpl in *.
  - apply drop_cons_lookup in E as [Hd _].
    rewrite (proj2 (load_Ok _ _ _) Hd). simpl.
    by rewrite Nat.add_0_r.
  - apply drop_cons_lookup in E as [Hd E].
    rewrite (proj2 (load_Ok _ _ _) Hd). simpl.
    rewrite !decide_False by done.
    rewrite (IH fuel (S p)); [f_equal; lia | done | lia].
  - apply drop_cons_lookup in E as [Hd E].
    apply drop_cons_lookup in E as [_ E].
    rewrite (proj2 (load_Ok _ _ _) Hd). simpl.
    replace (p + 2) with (S (S p)) by lia.
    rewrite (IH fuel (S (S p))); [f_equal; lia | done | lia].
Qed.

Lemma tsLiteral_shape p lit rest :
  raw_literal lit →
  drop p buf = lit ++ DQUOTE :: rest →
  tsLiteral buf p = Ok (p + length lit).
Proof.
  intros Hraw E. unfold tsLiteral.
  eapply tsLiteral_loop_shape; [done | exact E |].
  apply (f_equal length) in E.
  rewrite length_drop, length_app in E. simpl in E. lia.
Qed.

Lemma djb2_holds str s rest :
  drop str buf = s ++ rest →
  djb2 buf str (str + length s) = Ok (fold_left djb2_step s 5381%Z).
Proof.
  intros E. unfold djb2. eapply djb2_loop_range; [exact E|].
  apply (f_equal length) in E. rewrite length_drop, length_app in E. lia.
Qed.

Lemma tsBody_not_string p o ws c rest :
  drop (p + 4) buf = ws ++ c :: rest →
  Forall (λ c, isspace c = true) ws → isspace c = false → c ≠ DQUOTE →
  tsBody buf path p o = Ok (inl (OnlyStrings path)).
Proof.
  intros E Hws Hc Hq. unfold tsBody.
  rewrite (tsSpaces_shape _ _ _ _ E Hws Hc). simpl.
  apply drop_app_shift, drop_cons_lookup in E as [Hd _].
  rewrite (proj2 (load_Ok _ _ _) Hd). simpl.
  by rewrite decide_True.
Qed.

Lemma tsBody_literal p o ws1 lit ws2 c rest :
  drop (p + 4) buf = ws1 ++ DQUOTE :: lit ++ DQUOTE :: ws2 ++ c :: rest →
  Forall (λ c, isspace c = true) ws1 → raw_literal lit →
  Forall (λ c, isspace c = true) ws2 → isspace c = false →
  tsBody buf path p o
  = Ok (if decide (c ≠ RPAREN)
        then inl (MissingParen path (until_nul (c :: rest)))
        else inr (p + 4 + length ws1 + 1 + length lit + 1 + length ws2 + 1,
                  print_advance
                    (sid_text (fold_left djb2_step lit 5381%Z)
                              (until_nul lit))
                    (19 + length lit) o)).
Proof.
  intros E Hws1 Hraw Hws2 Hc. unfold tsBody.
  rewrite (tsSpaces_shape _ _ _ _ E Hws1 eq_refl). simpl.
  apply drop_app_shift, drop_cons_lookup in E as [Hq1 E].
  rewrite (proj2 (load_Ok _ _ _) Hq1). simpl.
  set (start := S (p + 4 + length ws1)) in *.
  rewrite (tsLiteral_shape _ _ _ Hraw E). cbn [mbind res_mbind res_bind].
  rewrite (djb2_holds _ _ _ E). cbn [mbind res_mbind res_bind].
  replace (start + length lit - start) with (length lit) by lia.
  assert (printf_s buf (length lit) start = until_nul lit) as ->.
  { unfold printf_s. by rewrite E, take_app_length. }
  apply drop_app_shift, drop_cons_lookup in E as [_ E].
  replace (S (start + length lit)) with (start + length lit + 1) in E by lia.
  rewrite (tsSpaces_shape _ _ _ _ E Hws2 Hc). cbn [mbind res_mbind res_bind].
  pose proof E as E'.
  apply drop_app_shift, drop_cons_lookup in E as [Hd _].
  rewrite (proj2 (load_Ok _ _ _) Hd). cbn [mbind res_mbind res_bind].
  destruct (decide (c ≠ RPAREN)) as [Hne|He].
  - apply drop_app_shift in E'. by rewrite E'.
  - do 3 f_equal. unfold start. lia.
Qed.
End BodyFacts.

Lemma bind_Ok_inv {A B} (m : res A) (k : A → res B) b :
  m ≫= k = Ok b → ∃ a, m = Ok a ∧ k a = Ok b.
Proof. destruct m as [a| |]; simpl; intros E; try done. eauto. Qed.

Section BodyInversion.
Context {abi : Abi}.
Variable buf : list ascii.
Variable path : string.

(** *** From the result to the shape of the input *)

Lemma tsSpaces_loop_inv fuel d d1 :
  tsSpaces_loop buf fuel d = Ok d1 → d ≤ d1.
Proof.
  revert d. induction fuel as [|fuel IH]; intros d E; simpl in E; [done|].
  apply bind_Ok_inv in E as (c & _ & E).
  destruct (isspace c).
  - apply IH in E. lia.
  - simplify_eq. lia.
Qed.

Lemma tsLiteral_loop_inv fuel p q :
  tsLiteral_loop buf fuel p = Ok q →
  p ≤ q ∧ buf !! q = Some DQUOTE ∧ raw_literal (range buf p q).
Proof.
  revert p. induction fuel as [|fuel IH]; intros p E; simpl in E; [done|].
  apply bind_Ok_inv in E as (c & Hc & E). apply load_Ok in Hc.
  destruct (decide (c = BACKSLASH)) as [->|Hb].
  - apply IH in E as (Hle & Hq & Hraw).
    pose proof (lookup_lt_Some _ _ _ Hq) as Hlt.
    destruct (lookup_lt_is_Some_2 buf (S p)) as [c2 Hc2]; [lia|].
    split; [lia|]. split; [done|].
    rewrite (range_cons _ _ _ _ Hc), (range_cons _ _ _ _ Hc2) by lia.
    replace (S (S p)) with (p + 2) by lia. by constructor.
  - destruct (decide (c = DQUOTE)) as [->|Hq].
    + simplify_eq. rewrite range_nil. split; [lia|]. split; [done | constructor].
    + apply IH in E as (Hle & Hq' & Hraw).
      split; [lia|]. split; [done|].
      rewrite (range_cons _ _ _ _ Hc) by lia. by constructor.
Qed.

Lemma tsBody_inv p o d' o' :
  tsBody buf path p o = Ok (inr (d', o')) →
  ∃ start ptr h,
    p + 4 < start ∧ buf !! (start - 1) = Some DQUOTE
    ∧ start ≤ ptr ∧ buf !! ptr = Some DQUOTE
    ∧ raw_literal (range buf start ptr)
    ∧ djb2 buf start ptr = Ok h
    ∧ o' = print_advance (sid_text h (until_nul (range buf start ptr)))
                         (19 + (ptr - start)) o
    ∧ ptr + 1 < d' ∧ buf !! (d' - 1) = Some RPAREN.
Proof.
  unfold tsBody. intros E.
  apply bind_Ok_inv in E as (d1 & Hd1 & E). apply tsSpaces_loop_inv in Hd1.
  apply bind_Ok_inv in E as (c & Hc & E). apply load_Ok in Hc.
  destruct (decide (c ≠ DQUOTE)) as [|Hq]; [done|].
  apply dec_stable in Hq. subst c.
  apply bind_Ok_inv in E as (ptr & Hptr & E).
  apply tsLiteral_loop_inv in Hptr as (Hle & Hq & Hraw).
  apply bind_Ok_inv in E as (h & Hh & E).
  apply bind_Ok_inv in E as (d2 & Hd2 & E). apply tsSpaces_loop_inv in Hd2.
  apply bind_Ok_inv in E as (c & Hc2 & E). apply load_Ok in Hc2.
  destruct (decide (c ≠ RPAREN)) as [|Hr]; [done|].
  apply dec_stable in Hr. subst c. simplify_eq.
  exists (S d1), ptr, h. simpl. rewrite Nat.sub_0_r.
  replace (d2 + 1 - 1) with d2 by lia.
  repeat split; try done; lia.
Qed.
End BodyInversion.

(** ** The loop of tsPreprocess *)

Section LoopFacts.
Context {abi : Abi}.
Variable content : list ascii.
Variable path : string.
Local Abbreviation buf := (input_block content).

Lemma tsNext_internal_spec d o :
  d ≤ length content →
  ∃ r, tsNext_internal buf d o = Ok r ∧ next_post content d o r.
Proof.
  intros Hd. apply tsNext_loop_spec; [done|]. rewrite block_length. lia.
Qed.

Lemma tsBody_bound p o d' o' :
  tsBody buf path p o = Ok (inr (d', o')) → p < d' ≤ length content.
Proof.
  intros E. apply tsBody_inv in E
    as (start & ptr & h & H1 & _ & H2 & _ & _ & _ & _ & H3 & Hr).
  apply block_lookup_nonnul in Hr; [lia | done].
Qed.

Lemma tsPreprocess_loop_S fuel data out m :
  tsPreprocess_loop buf path (S fuel) data out m
  = ('(found, data, out) ← tsNext_internal buf data out;
     if decide (found = 0%Z) then Ok (inr (out, m))
     else
       r ← tsBody buf path data out;
       match r with
       | inl msg => Ok (inl msg)
       | inr (data, out) => tsPreprocess_loop buf path fuel data out true
       end).
Proof. done. Qed.

Local Arguments tsPreprocess_loop : simpl never.

Lemma tsPreprocess_loop_fuel f1 f2 d o m :
  d ≤ length content →
  length content - d < f1 → length content - d < f2 →
  tsPreprocess_loop buf path f1 d o m = tsPreprocess_loop buf path f2 d o m.
Proof.
  revert f2 d o m. induction f1 as [|f1 IH]; intros f2 d o m Hd H1 H2; [lia|].
  destruct f2 as [|f2]; [lia|]. rewrite !tsPreprocess_loop_S.
  destruct (tsNext_internal_spec d o Hd) as ([[found p] o1] & -> & Hp & _).
  simpl. destruct (decide (found = 0%Z)); [done|].
  destruct (tsBody buf path p o1) as [[msg|[d' o']]| |] eqn:E; simpl; try done.
  apply tsBody_bound in E. apply IH; lia.
Qed.

Lemma loop_head_scan d o m :
  loop_head buf path d o m →
  d ≤ length content
  ∧ ∀ fuel, length content - d < fuel →
      tsScan path content = tsPreprocess_loop buf path fuel d o m.
Proof.
  induction 1 as [|d o m p o1 d' o' _ [Hd IH] Hnext Hbody].
  - split; [lia|]. intros fuel Hf. unfold tsScan.
    apply tsPreprocess_loop_fuel; [lia | rewrite block_length; lia | done].
  - destruct (tsNext_internal_spec d o Hd) as ([[f0 p0] o0] & E & Hp & _).
    rewrite Hnext in E. injection E as <- <- <-.
    pose proof (tsBody_bound _ _ _ _ Hbody) as Hb.
    split; [lia|]. intros fuel Hf.
    rewrite (IH (S (S (length content - d)))) by lia.
    rewrite tsPreprocess_loop_S, Hnext. simpl. rewrite Hbody. simpl.
    apply tsPreprocess_loop_fuel; lia.
Qed.

Lemma loop_head_boundary d o m :
  loop_head buf path d o m → boundary buf d.
Proof.
  destruct 1 as [|d o m p o1 d' o' _ _ Hbody].
  - intros c Hpos. lia.
  - apply tsBody_inv in Hbody
      as (start & ptr & h & _ & _ & _ & _ & _ & _ & _ & _ & Hr).
    intros c _ Hc. by simplify_eq.
Qed.

Lemma triggered_spec p o :
  triggered buf path p o →
  holds buf p (chars "SID(") ∧ p + 4 ≤ length content ∧ boundary buf p.
Proof.
  intros (d & o0 & m & Hh & Hnext).
  destruct (loop_head_scan _ _ _ Hh) as [Hd _].
  destruct (tsNext_internal_spec d o0 Hd)
    as ([[f1 p1] o1] & E & _ & k & _ & _ & Hf).
  rewrite Hnext in E. injection E as <- <- <-.
  destruct Hf as [|(_ & _ & Hs & Hle & Hb)]; [done|].
  repeat split; try done. apply Hb. left. by eapply loop_head_boundary.
Qed.

(** A run that reaches a trigger goes on with the body of the loop. *)
Lemma triggered_scan p o :
  triggered buf path p o →
  tsScan path content
  = (r ← tsBody buf path p o;
     match r with
     | inl msg => Ok (inl msg)
     | inr (d', o') =>
         tsPreprocess_loop buf path (S (length content - d')) d' o' true
     end).
Proof.
  intros (d & o0 & m & Hh & Hnext).
  destruct (loop_head_scan _ _ _ Hh) as [Hd Hscan].
  destruct (tsNext_internal_spec d o0 Hd) as ([[f1 p1] o1] & E & Hp & _).
  rewrite Hnext in E. injection E as <- <- <-.
  rewrite (Hscan (S (S (length content - d)))) by lia.
  rewrite tsPreprocess_loop_S, Hnext. simpl.
  destruct (tsBody buf path p o) as [[msg|[d' o']]| |] eqn:E; simpl; try done.
  apply tsBody_bound in E. apply tsPreprocess_loop_fuel; lia.
Qed.
End LoopFacts.

(** ** The hexadecimal digits *)

Lemma nibble_mod h i : nibble h i = ((h / 16 ^ Z.of_nat i) mod 16)%Z.
Proof.
  unfold nibble. change 15%Z with (Z.ones 4).
  rewrite Z.land_ones, Z.shiftr_div_pow2 by lia.
  rewrite Z.pow_mul_r by lia. done.
Qed.

Lemma nibble_range h i : (0 ≤ nibble h i < 16)%Z.
Proof. rewrite nibble_mod. apply Z.mod_pos_bound. lia. Qed.

Lemma code_hex_digit n :
  (0 ≤ n < 16)%Z →
  code (hex_digit n)
  = if (n <? 10)%Z then 48 + Z.to_nat n else 97 + Z.to_nat (n - 10).
Proof.
  intros Hn. unfold hex_digit, code.
  destruct (n <? 10)%Z eqn:E; apply Ascii.nat_ascii_embedding; lia.
Qed.

Lemma hex_digit_lower n : (0 ≤ n < 16)%Z → lower_hex (hex_digit n).
Proof.
  intros Hn. unfold lower_hex. rewrite code_hex_digit by done.
  destruct (n <? 10)%Z eqn:E; lia.
Qed.

Lemma hex_digit_value_digit n :
  (0 ≤ n < 16)%Z → hex_digit_value (hex_digit n) = n.
Proof.
  intros Hn. unfold hex_digit_value. rewrite code_hex_digit by done.
  destruct (n <? 10)%Z eqn:E.
  - rewrite (proj2 (Nat.leb_le _ _)) by lia. lia.
  - rewrite (proj2 (Nat.leb_gt _ _)) by lia. lia.
Qed.

Lemma hex8_length h : length (hex8 h) = 8.
Proof. done. Qed.

Lemma hex8_lower h : Forall lower_hex (hex8 h).
Proof.
  unfold hex8. apply Forall_fmap, Forall_forall. intros i _. simpl.
  apply hex_digit_lower, nibble_range.
Qed.

Lemma hex_value_hex8 h : (0 ≤ h < 2 ^ 32)%Z → hex_value (hex8 h) = h.
Proof.
  intros Hh. unfold hex_value, hex8. simpl.
  rewrite !hex_digit_value_digit by apply nibble_range.
  rewrite !nibble_mod.
  set (q1 := (h / 16)%Z). set (q2 := (q1 / 16)%Z). set (q3 := (q2 / 16)%Z).
  set (q4 := (q3 / 16)%Z). set (q5 := (q4 / 16)%Z). set (q6 := (q5 / 16)%Z).
  set (q7 := (q6 / 16)%Z).
  assert (h / 16 ^ Z.of_nat 0 = h)%Z as -> by apply Z.div_1_r.
  assert (h / 16 ^ Z.of_nat 1 = q1)%Z as -> by done.
  assert (h / 16 ^ Z.of_nat 2 = q2)%Z as ->
    by (unfold q2, q1; rewrite !Z.div_div by lia; done).
  assert (h / 16 ^ Z.of_nat 3 = q3)%Z as ->
    by (unfold q3, q2, q1; rewrite !Z.div_div by lia; done).
  assert (h / 16 ^ Z.of_nat 4 = q4)%Z as ->
    by (unfold q4, q3, q2, q1; rewrite !Z.div_div by lia; done).
  assert (h / 16 ^ Z.of_nat 5 = q5)%Z as ->
    by (unfold q5, q4, q3, q2, q1; rewrite !Z.div_div by lia; done).
  assert (h / 16 ^ Z.of_nat 6 = q6)%Z as ->
    by (unfold q6, q5, q4, q3, q2, q1; rewrite !Z.div_div by lia; done).
  assert (h / 16 ^ Z.of_nat 7 = q7)%Z as E7
    by (unfold q7, q6, q5, q4, q3, q2, q1; rewrite !Z.div_div by lia; done).
  rewrite E7.
  assert (q7 mod 16 = q7)%Z as ->.
  { apply Z.mod_small. rewrite <- E7. split; [apply Z.div_pos; lia|].
    apply Z.div_lt_upper_bound; simpl; lia. }
  pose proof (Z.div_mod h 16). pose proof (Z.div_mod q1 16).
  pose proof (Z.div_mod q2 16). pose proof (Z.div_mod q3 16).
  pose proof (Z.div_mod q4 16). pose proof (Z.div_mod q5 16).
  pose proof (Z.div_mod q6 16).
  fold q1 in H. fold q2 in H0. fold q3 in H1. fold q4 in H2. fold q5 in H3.
  fold q6 in H4. fold q7 in H5. lia.
Qed.

(** ** Invocations and whole files *)

Lemma range_length (block : list ascii) p q :
  q ≤ length block → length (range block p q) = q - p.
Proof. intros Hq. unfold range. rewrite length_take, length_drop. lia. Qed.

Lemma written_puts text o :
  cells o = Some <$> text → written o = Ok text.
Proof.
  intros E. unfold written. rewrite E.
  replace (mapM id (Some <$> text)) with (Some text); [done|].
  symmetry. apply mapM_Some. apply Forall2_fmap_l, Forall_Forall2_diag.
  by apply Forall_forall.
Qed.

Lemma block_load_end content :
  load (input_block content) (length content) = Ok NUL.
Proof.
  apply load_Ok. unfold input_block.
  rewrite lookup_app_r by lia. by rewrite Nat.sub_diag.
Qed.

Section Invocation.
Context {abi : Abi}.

(** The body of the loop at a well-formed invocation whose literal
    holds no NUL. *)
Lemma tsBody_invocation buf path p o ws1 literal ws2 rest :
  drop (p + 4) buf
  = ws1 ++ DQUOTE :: literal ++ DQUOTE :: ws2 ++ RPAREN :: rest →
  Forall (λ c, isspace c = true) ws1 → Forall (λ c, isspace c = true) ws2 →
  raw_literal literal → Forall (λ c, c ≠ NUL) literal →
  ∃ o',
    tsBody buf path p o
    = Ok (inr (p + 4 + length ws1 + 1 + length literal + 1 + length ws2 + 1,
               o'))
    ∧ cells o'
      = cells o
        ++ (Some <$> replacement (hash_fold int_of_char literal) literal).
Proof.
  intros E Hws1 Hws2 Hraw Hnul.
  rewrite (tsBody_literal buf path p o _ _ _ _ _ E Hws1 Hraw Hws2 eq_refl).
  rewrite decide_False by (intros Hne; by apply Hne).
  eexists. split; [done|].
  rewrite until_nul_id, fold_djb2_step by done.
  rewrite <- sid_text_length with (h := hash_fold int_of_char literal).
  apply print_advance_exact.
Qed.
End Invocation.




Lemma has_trigger_false content : has_trigger content = false → no_trigger content.
Proof.
  induction content as [|c content IH]; intros Hf pre post E.
  - apply (f_equal length) in E. rewrite !length_app in E. simpl in E. lia.
  - simpl in Hf. apply orb_false_iff in Hf as [Hhere Hlater].
    apply bool_decide_eq_false in Hhere.
    destruct pre as [|x pre]; simpl in E.
    + injection E as -> ->. by apply Hhere.
    + injection E as _ E. by apply (IH Hlater pre post).
Qed.

Lemma holds_in_content content p s :
  holds (input_block content) p s → p + length s ≤ length content →
  ∃ pre post, content = pre ++ s ++ post.
Proof.
  intros [rest E] Hle. unfold input_block in E.
  rewrite drop_app_le in E by lia.
  apply (f_equal (take (length s))) in E.
  rewrite take_app_le, take_app_length in E by (rewrite length_drop; lia).
  exists (take p content), (drop (length s) (drop p content)).
  rewrite <- (take_drop p content) at 1. f_equal.
  rewrite <- (take_drop (length s) (drop p content)) at 1. by rewrite E.
Qed.

Lemma tsPreprocess_skipped `{Abi} fs path out_path content m :
  fs !! path = Some content → tsScan path content = Ok (inl m) →
  tsPreprocess fs path out_path
  = Ok {| returned := 0; files := fs; printed := [m] |}.
Proof. intros Hfs E. unfold tsPreprocess. by rewrite Hfs, E. Qed.

Lemma tsPreprocess_written `{Abi} fs path out_path content o text :
  fs !! path = Some content → tsScan path content = Ok (inr (o, true)) →
  cells o = (Some <$> text) →
  tsPreprocess fs path out_path
  = Ok {| returned := 1; files := <[out_path := text]> fs; printed := [] |}.
Proof.
  intros Hfs E Ho. unfold tsPreprocess. rewrite Hfs, E.
  cbn [mbind res_mbind res_bind]. by rewrite (written_puts _ _ Ho).
Qed.

(** ** Alphanumeric runs *)

Section Runs.
Context {abi : Abi}.
Variable content : list ascii.
Local Abbreviation buf := (input_block content).

Lemma tsCopyWhile_loop_shape test fuel d o w c rest :
  drop d buf = w ++ c :: rest →
  Forall (λ c, test c = true) w → test c = false → length w < fuel →
  tsCopyWhile_loop buf test fuel d o = Ok (d + length w, puts w o).
Proof.
  revert d o w. induction fuel as [|fuel IH]; intros d o w E Hw Hc Hf; [lia|].
  simpl. destruct w as [|x w]; simpl in *.
  - apply drop_cons_lookup in E as [Hd _].
    rewrite (proj2 (load_Ok _ _ _) Hd). simpl. rewrite Hc.
    by rewrite Nat.add_0_r.
  - apply drop_cons_lookup in E as [Hd E].
    rewrite (proj2 (load_Ok _ _ _) Hd). simpl.
    inversion Hw as [|? ? Hx Hw']; subst. rewrite Hx.
    rewrite (IH (S d) (putc x o) w); [|done..|lia].
    f_equal. f_equal. lia.
Qed.

Lemma tsMatch_loop_alnum pat d idx w rest :
  drop d buf = w ++ rest → Forall (λ c, isalnum c = true) w →
  length pat ≤ length w → take (length pat) w ≠ pat →
  ∃ k, tsMatch_loop buf pat d idx = Ok (MatchBreak false (d + k) (idx + k)).
Proof.
  revert d idx w. induction pat as [|m pat IH]; intros d idx w E Hw Hlen Hne.
  - by destruct Hne.
  - destruct w as [|c w]; [simpl in Hlen; lia|]. simpl in *.
    apply drop_cons_lookup in E as [Hd E].
    rewrite (proj2 (load_Ok _ _ _) Hd). simpl.
    inversion Hw as [|? ? Hc Hw']; subst.
    rewrite (proj2 (is_nul_false c)) by by apply isalnum_not_nul.
    destruct (decide (c = m)) as [->|Hcm].
    + destruct (IH (S d) (S idx) w) as [k Hk]; [done | done | lia | |].
      { intros Ht. apply Hne. by rewrite Ht. }
      exists (S k). rewrite Hk. do 2 f_equal; lia.
    + exists 0. do 2 f_equal; lia.
Qed.

Lemma tsNext_loop_mono fuel d o r :
  tsNext_loop buf fuel d o = Ok r → tsNext_loop buf (S fuel) d o = Ok r.
Proof.
  revert d o. induction fuel as [|fuel IH]; intros d o E; [done|].
  rewrite tsNext_loop_S in E. rewrite tsNext_loop_S.
  destruct (load buf d) as [c| |]; cbn [mbind res_mbind res_bind] in *;
    try done.
  destruct (is_nul c); [done|].
  destruct (tsSkipWhite_internal buf d o) as [[d1 o1]| |];
    cbn [mbind res_mbind res_bind] in *; try done.
  destruct (load buf d1) as [c1| |]; cbn [mbind res_mbind res_bind] in *;
    try done.
  destruct (is_nul c1); [done|].
  destruct (negb (isalnum c1)); [by apply IH|].
  destruct (tsMatch_loop buf (chars "SID(") d1 0) as [e| |];
    cbn [mbind res_mbind res_bind] in *; try done.
  destruct e as [[|] d2 idx|d2]; try done.
  destruct (tsCopyAlnum buf (d2 - idx) o1) as [[d3 o3]| |];
    cbn [mbind res_mbind res_bind] in *; try done.
  by apply IH.
Qed.

Lemma tsNext_loop_fuel f1 f2 d o :
  d ≤ length content → length content - d < f1 → length content - d < f2 →
  tsNext_loop buf f1 d o = tsNext_loop buf f2 d o.
Proof.
  intros Hd H1 H2.
  assert (∀ f n r, tsNext_loop buf f d o = Ok r →
                   tsNext_loop buf (n + f) d o = Ok r) as Hup.
  { intros f n r E. induction n as [|n IHn]; [done|].
    by apply tsNext_loop_mono. }
  destruct (tsNext_loop_spec content f1 d o Hd H1) as (r1 & E1 & _).
  destruct (tsNext_loop_spec content f2 d o Hd H2) as (r2 & E2 & _).
  destruct (decide (f1 ≤ f2)).
  - pose proof (Hup f1 (f2 - f1) r1 E1) as E.
    replace (f2 - f1 + f1) with f2 in E by lia. congruence.
  - pose proof (Hup f2 (f1 - f2) r2 E2) as E.
    replace (f1 - f2 + f2) with f1 in E by lia. congruence.
Qed.

(** Standing at the first byte of an alphanumeric run that ends in SID
    and is followed by an opening parenthesis, [tsNext_internal] copies
    the run and the parenthesis and carries on behind them. *)
Lemma tsNext_internal_run d o run rest :
  drop d buf = run ++ chars "SID(" ++ rest →
  run ≠ [] → Forall (λ c, isalnum c = true) run →
  tsNext_internal buf d o
  = tsNext_internal buf (d + length run + 4) (puts (run ++ chars "SID(") o).
Proof.
  intros E Hne Hrun.
  set (w := run ++ chars "SID").
  assert (drop d buf = w ++ LPAREN :: rest) as Ew.
  { unfold w. by rewrite <- app_assoc. }
  assert (Forall (λ c, isalnum c = true) w) as Hw.
  { apply Forall_app. split; [done | by repeat constructor]. }
  assert (length w = length run + 3) as Hlw.
  { unfold w. by rewrite length_app. }
  assert (0 < length run) as Hlr by (destruct run; [done | simpl; lia]).
  assert (buf !! (d + length w) = Some LPAREN) as Hparen.
  { pose proof Ew as Ew'.
    by apply drop_app_shift, drop_cons_lookup in Ew' as [? _]. }
  assert (d + length w < length content) as Hlt
    by by apply (block_lookup_nonnul _ _ _ Hparen).
  pose proof (block_length content) as Hbl.
  destruct w as [|c0 w0] eqn:Hw0; [simpl in Hlw; lia|].
  pose proof Ew as Ew'. simpl in Ew'.
  apply drop_cons_lookup in Ew' as [Hc0 _].
  inversion Hw as [|? ? Hal0 _]; subst.
  unfold tsNext_internal at 1.
  rewrite tsNext_loop_S, (proj2 (load_Ok _ _ _) Hc0).
  cbn [mbind res_mbind res_bind].
  rewrite (proj2 (is_nul_false c0)) by by apply isalnum_not_nul.
  unfold tsSkipWhite_internal.
  rewrite (tsCopyWhile_loop_shape isspace _ d o [] c0 (w0 ++ LPAREN :: rest));
    [|done|constructor| |simpl; lia].
  2: { destruct (isspace c0) eqn:Hs; [|done].
       apply isspace_not_alnum in Hs. congruence. }
  cbn [mbind res_mbind res_bind length puts foldl].
  rewrite Nat.add_0_r, (proj2 (load_Ok _ _ _) Hc0).
  cbn [mbind res_mbind res_bind].
  rewrite (proj2 (is_nul_false c0)) by by apply isalnum_not_nul.
  rewrite Hal0. cbn [negb].
  destruct (tsMatch_loop_alnum (chars "SID(") d 0 (c0 :: w0)
              (LPAREN :: rest) Ew Hw) as [k ->].
  { simpl in *. lia. }
  { intros Ht. apply (f_equal (λ l, Forall (λ c, isalnum c = true) l)) in Ht.
    assert (Forall (λ c, isalnum c = true) (take (length (chars "SID("))
                                                 (c0 :: w0))) as Hall
      by by apply Forall_take.
    rewrite Ht in Hall. by apply Forall_cons in Hall as [_ Hall];
      apply Forall_cons in Hall as [_ Hall];
      apply Forall_cons in Hall as [_ Hall];
      apply Forall_cons in Hall as [Hall _]. }
  cbn [mbind res_mbind res_bind].
  replace (d + k - (0 + k)) with d by lia.
  unfold tsCopyAlnum.
  rewrite (tsCopyWhile_loop_shape isalnum _ d o (c0 :: w0) LPAREN rest Ew Hw);
    [|done|lia].
  cbn [mbind res_mbind res_bind].
  replace (length buf - d) with (S (length buf - d - 1)) by lia.
  rewrite tsNext_loop_S, (proj2 (load_Ok _ _ _) Hparen).
  cbn [mbind res_mbind res_bind].
  change (is_nul LPAREN) with false. cbv iota.
  unfold tsSkipWhite_internal.
  rewrite (tsCopyWhile_loop_shape isspace _ _ _ [] LPAREN rest);
    [|by rewrite (drop_lookup_cons _ _ _ Hparen),
            (proj2 (drop_cons_lookup _ _ _ _
                      (drop_app_shift _ _ _ _ Ew)))
     |constructor|done|simpl; lia].
  cbn [mbind res_mbind res_bind].
  change (length (@nil ascii)) with 0.
  change (puts [] (puts (c0 :: w0) o)) with (puts (c0 :: w0) o).
  rewrite Nat.add_0_r, (proj2 (load_Ok _ _ _) Hparen).
  cbn [mbind res_mbind res_bind].
  change (is_nul LPAREN) with false. change (isalnum LPAREN) with false.
  cbn [negb]. cbv iota.
  unfold tsNext_internal.
  assert (puts (run ++ chars "SID(") o
          = putc LPAREN (puts (c0 :: w0) o)) as ->.
  { rewrite <- Hw0. unfold w.
    change (chars "SID(") with (chars "SID" ++ [LPAREN]).
    by rewrite app_assoc, puts_app. }
  replace (S (d + length (c0 :: w0))) with (d + length run + 4) by lia.
  apply tsNext_loop_fuel; lia.
Qed.
End Runs.

Section Unterminated.
Context {abi : Abi}.
Variable buf : list ascii.

Lemma tsLiteral_loop_overrun fuel ptr :
  (∀ i c, ptr ≤ i → buf !! i = Some c → c ≠ DQUOTE) →
  length buf - ptr < fuel →
  tsLiteral_loop buf fuel ptr = Undefined ReadOutOfBounds.
Proof.
  revert ptr. induction fuel as [|fuel IH]; intros ptr Hno Hf; [lia|].
  simpl. unfold load. destruct (buf !! ptr) as [c|] eqn:Hc; [|done].
  pose proof (lookup_lt_Some _ _ _ Hc) as Hlt.
  cbn [mbind res_mbind res_bind].
  destruct (decide (c = BACKSLASH)).
  - apply IH; [|lia]. intros i c' Hi. apply Hno. lia.
  - destruct (decide (c = DQUOTE)) as [->|]; [by destruct (Hno ptr DQUOTE)|].
    apply IH; [|lia]. intros i c' Hi. apply Hno. lia.
Qed.
End Unterminated.

(** ** A file of one statement *)

Section Statement.
Context {abi : Abi}.

Lemma tsScan_statement path literal :
  raw_literal literal → Forall (λ c, c ≠ NUL) literal →
  ∃ o,
    tsScan path (statement literal) = Ok (inr (o, true))
    ∧ cells o
      = (Some <$> chars "x = "
           ++ replacement (hash_fold int_of_char literal) literal
           ++ chars ";")
    ∧ peak o ≤ capacity (statement literal).
Proof.
  intros Hraw Hnul.
  set (content := statement literal).
  set (o0 := puts (chars "x = ") out_start).
  assert (length content = length literal + 12) as Hlen.
  { unfold content, statement. simpl. rewrite !length_app. simpl. lia. }
  assert (drop (4 + 4) (input_block content)
          = [] ++ DQUOTE :: literal ++ DQUOTE :: []
               ++ RPAREN :: chars ";" ++ [NUL]) as E.
  { unfold content, statement, input_block. simpl.
    by rewrite <- app_assoc. }
  pose proof (tsBody_literal (input_block content) path 4 o0 _ _ _ _ _ E
                (Forall_nil_2 _) Hraw (Forall_nil_2 _) eq_refl) as Hbody.
  rewrite decide_False in Hbody by (intros Hne; by apply Hne).
  rewrite until_nul_id, fold_djb2_step in Hbody by done.
  fold (hash_fold int_of_char literal) in Hbody.
  set (h := hash_fold int_of_char literal) in *.
  set (o1 := print_advance (sid_text h literal) (19 + length literal) o0)
    in *.
  set (d1 := 4 + 4 + length (@nil ascii) + 1 + length literal + 1
             + length (@nil ascii) + 1) in *.
  assert (d1 = length literal + 11) as Hd1 by (unfold d1; simpl; lia).
  assert (drop d1 (input_block content) = chars ";" ++ [NUL]) as Etail.
  { apply drop_app_shift, drop_cons_lookup in E as [_ E].
    apply drop_app_shift, drop_cons_lookup in E as [_ E].
    apply (drop_app_shift _ _ []), drop_cons_lookup in E as [_ E].
    rewrite <- E. f_equal. unfold d1. simpl. lia. }
  exists (putc ";" o1). split; [|split].
  - unfold tsScan. rewrite block_length, tsPreprocess_loop_S.
    assert (tsNext_internal (input_block content) 0 out_start
            = Ok (1%Z, 4, o0)) as -> by done.
    cbn [mbind res_mbind res_bind]. rewrite decide_False by done.
    rewrite Hbody. cbn [mbind res_mbind res_bind].
    rewrite tsPreprocess_loop_S.
    pose proof Etail as Et.
    change (chars ";" ++ [NUL]) with [";"%char; NUL] in Et.
    apply drop_cons_lookup in Et as [Hsemi Et].
    apply drop_cons_lookup in Et as [Hend _].
    unfold tsNext_internal. rewrite block_length.
    replace (S (S (length content) - d1)) with 3 by lia.
    rewrite tsNext_loop_S, (proj2 (load_Ok _ _ _) Hsemi).
    cbn [mbind res_mbind res_bind]. change (is_nul ";") with false.
    cbv iota. unfold tsSkipWhite_internal.
    rewrite (tsCopyWhile_loop_shape _ isspace _ d1 o1 [] ";"%char [NUL]);
      [|done|constructor|done|simpl; lia].
    cbn [mbind res_mbind res_bind].
    change (length (@nil ascii)) with 0. change (puts [] o1) with o1.
    rewrite Nat.add_0_r, (proj2 (load_Ok _ _ _) Hsemi).
    cbn [mbind res_mbind res_bind]. change (is_nul ";") with false.
    change (isalnum ";") with false. cbn [negb]. cbv iota.
    rewrite tsNext_loop_S, (proj2 (load_Ok _ _ _) Hend).
    done.
  - unfold o1. cbn [cells putc].
    rewrite <- sid_text_length with (h := h), print_advance_exact.
    unfold o0. rewrite puts_cells. simpl.
    rewrite !fmap_app. by rewrite <- !app_assoc.
  - assert (peak o1 = 4 `max` (4 + (19 + length literal + 1))) as Hpeak.
    { unfold o1, print_advance. cbn [peak].
      by rewrite length_fmap, length_app, sid_text_length. }
    assert (length (cells o1) = 4 + (19 + length literal)) as Hcur
      by apply print_advance_length.
    unfold capacity. rewrite Hlen. cbn [putc peak].
    rewrite Hpeak, Hcur. lia.
Qed.
End Statement.

(** ** Fuel *)

(** The fuel the definitions above give to each loop is enough: no run of
    [tsPreprocess] ends for want of it. *)

Section Fuel.
Context {abi : Abi}.
Variable buf : list ascii.

Lemma tsSpaces_loop_fuel fuel d :
  length buf - d < fuel → tsSpaces_loop buf fuel d ≠ OutOfFuel.
Proof.
  revert d. induction fuel as [|fuel IH]; intros d Hf; [lia|].
  simpl. unfold load. destruct (buf !! d) as [c|] eqn:Hc; [|done].
  apply lookup_lt_Some in Hc. cbn [mbind res_mbind res_bind].
  destruct (isspace c); [|done]. apply IH. lia.
Qed.

Lemma tsLiteral_loop_fuel fuel ptr :
  length buf - ptr < fuel → tsLiteral_loop buf fuel ptr ≠ OutOfFuel.
Proof.
  revert ptr. induction fuel as [|fuel IH]; intros ptr Hf; [lia|].
  simpl. unfold load. destruct (buf !! ptr) as [c|] eqn:Hc; [|done].
  apply lookup_lt_Some in Hc. cbn [mbind res_mbind res_bind].
  destruct (decide (c = BACKSLASH)); [apply IH; lia|].
  destruct (decide (c = DQUOTE)); [done|]. apply IH. lia.
Qed.

Lemma djb2_loop_fuel fuel h str end_ :
  length buf - str < fuel → djb2_loop fuel buf h str end_ ≠ OutOfFuel.
Proof.
  revert h str. induction fuel as [|fuel IH]; intros h str Hf; [lia|].
  simpl. destruct (decide (str = end_)); [done|].
  unfold load. destruct (buf !! str) as [c|] eqn:Hc; [|done].
  apply lookup_lt_Some in Hc. cbn [mbind res_mbind res_bind].
  apply IH. lia.
Qed.

Lemma tsBody_fuel path p o : tsBody buf path p o ≠ OutOfFuel.
Proof.
  unfold tsBody, tsSpaces, tsLiteral, djb2.
  destruct (tsSpaces_loop buf _ (p + 4)) as [d1| |] eqn:E1;
    cbn [mbind res_mbind res_bind]; [|done|].
  2: { apply tsSpaces_loop_fuel in E1; [done | lia]. }
  destruct (load buf d1) as [c| |] eqn:Hc; cbn [mbind res_mbind res_bind];
    [|done|by unfold load in Hc; destruct (buf !! d1)].
  destruct (decide (c ≠ DQUOTE)); [done|].
  destruct (tsLiteral_loop buf _ (S d1)) as [ptr| |] eqn:E2;
    cbn [mbind res_mbind res_bind]; [|done|].
  2: { apply tsLiteral_loop_fuel in E2; [done | lia]. }
  destruct (djb2_loop _ buf 5381%Z (S d1) ptr) as [h| |] eqn:E3;
    cbn [mbind res_mbind res_bind]; [|done|].
  2: { apply djb2_loop_fuel in E3; [done | lia]. }
  destruct (tsSpaces_loop buf _ (ptr + 1)) as [d2| |] eqn:E4;
    cbn [mbind res_mbind res_bind]; [|done|].
  2: { apply tsSpaces_loop_fuel in E4; [done | lia]. }
  destruct (load buf d2) as [c2| |] eqn:Hc2; cbn [mbind res_mbind res_bind];
    [|done|by unfold load in Hc2; destruct (buf !! d2)].
  by destruct (decide (c2 ≠ RPAREN)).
Qed.
End Fuel.

Lemma tsPreprocess_loop_enough `{Abi} content path fuel d o m :
  d ≤ length content → length content - d < fuel →
  tsPreprocess_loop (input_block content) path fuel d o m ≠ OutOfFuel.
Proof.
  revert d o m. induction fuel as [|fuel IH]; intros d o m Hd Hf; [lia|].
  rewrite tsPreprocess_loop_S.
  destruct (tsNext_internal_spec content d o Hd) as ([[found p] o1] & -> & Hp & _).
  cbn [mbind res_mbind res_bind].
  destruct (decide (found = 0%Z)); [done|].
  destruct (tsBody (input_block content) path p o1) as [[msg|[d' o']]| |] eqn:E;
    cbn [mbind res_mbind res_bind]; [done| |done|by apply tsBody_fuel in E].
  apply tsBody_bound in E. apply IH; lia.
Qed.

(** Every call of [tsPreprocess] returns, or leaves the defined behaviour
    of C. *)
Lemma tsPreprocess_fuel_enough `{Abi} fs path out_path :
  tsPreprocess fs path out_path ≠ OutOfFuel.
Proof.
  unfold tsPreprocess. destruct (fs !! path) as [content|]; [|done].
  pose proof (tsPreprocess_loop_enough content path
                (S (length (input_block content))) 0 out_start false) as Hl.
  unfold tsScan.
  destruct (tsPreprocess_loop _ path _ 0 out_start false)
    as [[msg|[o [|]]]| |]; cbn [mbind res_mbind res_bind]; try done.
  - unfold written. by destruct (mapM id (cells o)).
  - exfalso. apply Hl; [lia | rewrite block_length; lia | done].
Qed.

Lemma tsPreprocess_statement `{Abi} fs path out_path literal :
  raw_literal literal → Forall (λ c, c ≠ NUL) literal →
  fs !! path = Some (statement literal) →
  tsPreprocess fs path out_path
  = Ok {| returned := 1;
          files := <[out_path :=
                       chars "x = "
                       ++ replacement (hash_fold int_of_char literal) literal
                       ++ chars ";"]> fs;
          printed := [] |}.
Proof.
  intros Hraw Hnul Hfs.
  destruct (tsScan_statement path literal Hraw Hnul) as (o & E & Ho & _).
  by eapply tsPreprocess_written.
Qed.

(** ** Files that fit the type int and the output block *)

Lemma no_trigger_none s :
  Forall (λ c, c ≠ "S"%char) s → no_trigger s.
Proof.
  intros Hs pre post ->. apply Forall_app in Hs as [_ Hs].
  by apply Forall_cons in Hs as [? _].
Qed.

Lemma tsScan_first `{Abi} path content :
  tsScan path content
  = ('(found, data, out) ← tsNext_internal (input_block content) 0 out_start;
     if decide (found = 0%Z) then Ok (inr (out, false))
     else
       r ← tsBody (input_block content) path data out;
       match r with
       | inl msg => Ok (inl msg)
       | inr (data, out) =>
           tsPreprocess_loop (input_block content) path
             (length (input_block content)) data out true
       end).
Proof. done. Qed.

Lemma tsPreprocess_int_fits `{Abi} fs path out_path content :
  fs !! path = Some content → int_size content →
  tsPreprocess_int fs path out_path = tsPreprocess fs path out_path.
Proof.
  intros Hfs Hs. unfold tsPreprocess_int. rewrite Hfs.
  by rewrite decide_True.
Qed.

(** [tsBody_stores] is the output of [tsBody] where the body goes back to
    the test of the loop, and is defined where the body leaves with a
    message. *)
Lemma tsBody_stores_body `{Abi} buf path p o r :
  tsBody buf path p o = Ok r →
  ∃ oa, tsBody_stores buf p o = Ok oa
        ∧ ∀ d' o', r = inr (d', o') → oa = o'.
Proof.
  unfold tsBody, tsBody_stores. intros E.
  destruct (tsSpaces buf (p + 4)) as [d1| |];
    cbn [mbind res_mbind res_bind] in *; try done.
  destruct (load buf d1) as [c| |];
    cbn [mbind res_mbind res_bind] in *; try done.
  destruct (decide (c ≠ DQUOTE)).
  { injection E as <-. by eexists. }
  destruct (tsLiteral buf (S d1)) as [ptr| |];
    cbn [mbind res_mbind res_bind] in *; try done.
  destruct (djb2 buf (S d1) ptr) as [h| |];
    cbn [mbind res_mbind res_bind] in *; try done.
  eexists. split; [done|]. intros d' o' ->.
  destruct (tsSpaces buf (ptr + 1)) as [d2| |];
    cbn [mbind res_mbind res_bind] in *; try done.
  destruct (load buf d2) as [c2| |];
    cbn [mbind res_mbind res_bind] in *; try done.
  destruct (decide (c2 ≠ RPAREN)); [done|]. by injection E as _ <-.
Qed.

(** A file without the trigger: the first call of [tsNext_internal] returns
    0, with a copy of a prefix of the file stored. *)
Lemma tsScan_untriggered_block `{Abi} path content :
  no_trigger content →
  ∃ o, tsScan path content = Ok (inr (o, false)) ∧ in_block content o.
Proof.
  intros Hno. rewrite tsScan_first.
  destruct (tsNext_internal_spec content 0 out_start)
    as ([[found p] o1] & -> & Hp & k & -> & Hk & Hf); [lia|].
  cbn [mbind res_mbind res_bind].
  destruct Hf as [->|(_ & _ & Hh & Hle & _)].
  - eexists. split; [done|]. unfold in_block, capacity.
    etrans; [apply puts_peak|]. rewrite length_take. simpl. lia.
  - destruct (holds_in_content _ _ _ Hh Hle) as (pre & post & Hc).
    by destruct (Hno pre post).
Qed.

(** * The claims *)



(** C2, as amended.  For every byte range [[start, end_)] of a block,
    [djb2] returns the left fold from 5381 of [acc * 33 + c] with 32-bit
    wrap-around, where [c] is the byte converted from [char] to [int]; [c]
    is the byte value of the byte where plain [char] is unsigned, and for
    every byte below 128.  The empty range hashes to 5381, and the range
    holding the one byte 'a' to [5381 * 33 + 97] modulo 2^32. *)
Theorem djb2_is_fold `{Abi} (mem : list ascii) (start end_ : nat) :
  start ≤ end_ ≤ length mem →
  djb2 mem start end_ = Ok (hash_fold int_of_char (range mem start end_))
  ∧ (char_signed = false
     ∨ Forall (λ c, (byte_value c < 128)%Z) (range mem start end_) →
     djb2 mem start end_ = Ok (hash_fold byte_value (range mem start end_)))
  ∧ djb2 mem start start = Ok 5381%Z
  ∧ djb2 (chars "a") 0 1 = Ok ((5381 * 33 + 97) mod 2 ^ 32)%Z.
Proof.
  intros Hr.
  assert (djb2 mem start end_
          = Ok (hash_fold int_of_char (range mem start end_))) as E.
  { rewrite djb2_range by done. unfold hash_fold. by rewrite fold_djb2_step. }
  split; [done|]. split; [|split].
  - intros Hc. rewrite E. f_equal. apply hash_fold_ext.
    destruct Hc as [Hu|Hlow].
    + apply Forall_forall. intros c _. unfold int_of_char. by rewrite Hu.
    + eapply Forall_impl; [exact Hlow|]. intros c Hlt. by apply int_of_char_low.
  - rewrite djb2_range by lia. unfold range.
    by rewrite Nat.sub_diag, take_0.
  - rewrite djb2_range by (simpl; lia). unfold range. simpl.
    rewrite djb2_step_arith, int_of_char_low; [done|].
    by vm_compute.
Qed.

Lemma djb2_is_fold_witness :
  1 ≤ 4 ≤ length (chars "(SID)") ∧
  djb2 (abi := x86_64) (chars "(SID)") 1 4
  = Ok (hash_fold byte_value (chars "SID")).
Proof.
  split; [simpl; lia|].
  apply (djb2_is_fold (H := x86_64) (chars "(SID)") 1 4); [simpl; lia|].
  right. repeat constructor.
Defined.

(** C2, as stated, fails where plain [char] is signed: the byte 0x80 enters
    the sum as -128, not as its byte value 128. *)
Lemma djb2_signed_high_byte :
  let high := Ascii.ascii_of_nat 128 in
  djb2 (abi := x86_64) [high] 0 1 = Ok 177445%Z
  ∧ hash_fold byte_value (range [high] 0 1) = 177701%Z
  ∧ djb2 (abi := x86_64) [high] 0 1
    ≠ Ok (hash_fold byte_value (range [high] 0 1)).
Proof. intros high. split; [|split]; vm_compute; congruence. Qed.

(** C3, at a failing input.  The file x = SID("x"); SI ends in a partial
    trigger.  The run stays inside the output block and writes a file, and
    the file written holds the bytes before the invocation, the
    replacement, and the two bytes after it: the final S and I are in no
    invocation and are not in the output.  [tsNext_internal] leaves through
    [return_result] with the read cursor behind them and nothing stored. *)
Theorem partial_trigger_dropped :
  let x := [DQUOTE] ++ chars "x" ++ [DQUOTE] in
  let content := chars "x = SID(" ++ x ++ chars "); SI" in
  let fs : gmap string (list ascii) := {[ "a.c" := content ]} in
  tsPreprocess (H := x86_64) fs "a.c" "b.c"
  = Ok {| returned := 1;
          files := <["b.c" := chars "x = 0x0002b61d /* " ++ x
                                ++ chars " */; "]> fs;
          printed := [] |}
  ∧ (∃ o, tsScan (H := x86_64) "a.c" content = Ok (inr (o, true))
          ∧ peak o ≤ capacity content)
  ∧ tsNext_internal (input_block content) 14 out_start
    = Ok (0%Z, 16, out_start).
Proof.
  intros x content fs. split; [|split].
  - eapply tsPreprocess_written;
      [apply lookup_singleton_eq | by vm_compute | by vm_compute].
  - eexists. split; [by vm_compute|]. vm_compute. lia.
  - by vm_compute.
Qed.

(** C4, at a failing input.  For the 7-byte file SID("") the output block
    has 14 bytes; the replacement moves the write cursor to offset 19, and
    [sprintf] has stored 20 bytes. *)
Theorem output_block_overrun :
  let content := chars "SID(" ++ [DQUOTE; DQUOTE] ++ chars ")" in
  length content = 7 ∧ capacity content = 14
  ∧ ∃ o, tsScan (H := x86_64) "a.c" content = Ok (inr (o, true))
         ∧ length (cells o) = 19 ∧ peak o = 20.
Proof.
  intros content. split; [done|]. split; [done|].
  eexists. split; [by vm_compute|]. by vm_compute.
Qed.

(** Every pass through the body of the loop that goes back to its test
    has found a Literal Span between two double quotes and moved the write
    cursor by 19 and the length of the span; when no byte of the span is
    NUL, what it stored is the replacement for the span. *)
Lemma replacement_emitted `{Abi} (buf : list ascii) (path : string)
  (p : nat) (o : outbuf) (d' : nat) (o' : outbuf) :
  tsBody buf path p o = Ok (inr (d', o')) →
  ∃ start ptr h,
    let literal := range buf start ptr in
    buf !! (start - 1) = Some DQUOTE ∧ buf !! ptr = Some DQUOTE
    ∧ start ≤ ptr ∧ length literal = ptr - start
    ∧ djb2 buf start ptr = Ok h
    ∧ length (cells o') = length (cells o) + (19 + length literal)
    ∧ (Forall (λ c, c ≠ NUL) literal →
       cells o' = cells o ++ (Some <$> replacement h literal))
    ∧ length (replacement h literal) = 19 + length literal
    ∧ length (hex8 h) = 8 ∧ Forall lower_hex (hex8 h)
    ∧ hex_value (hex8 h) = h.
Proof.
  intros E. apply tsBody_inv in E
    as (start & ptr & h & _ & Hq1 & Hle & Hq2 & _ & Hh & -> & _ & _).
  exists start, ptr, h. cbv zeta.
  assert (length (range buf start ptr) = ptr - start) as Hlen.
  { apply range_length. apply lookup_lt_Some in Hq2. lia. }
  split; [done|]. split; [done|]. split; [done|]. split; [done|].
  split; [done|]. split.
  { rewrite print_advance_length. lia. }
  split.
  { intros Hnul. rewrite until_nul_id by done.
    rewrite <- Hlen, <- sid_text_length with (h := h).
    apply print_advance_exact. }
  split; [apply sid_text_length|].
  split; [done|]. split; [apply hex8_lower|].
  apply hex_value_hex8. by eapply djb2_bound.
Qed.

(** C5, at a failing input.  In the 15-byte file x = SID("a<NUL>b"); the
    invocation is fully validated, with a Literal Span of the 3 bytes a,
    NUL, b.  The run stays inside the output block of 30 bytes, and the
    cursor advances by 19 + 3 over the replacement; but [%.*s] stops at
    the NUL, so the comment holds only a: behind the 20 bytes of the text
    come the terminator of [sprintf] and a cell that no store has reached,
    and what is handed to [fwrite] is not the replacement of the claim. *)
Theorem comment_cut_at_nul :
  let lit := chars "a" ++ [NUL] ++ chars "b" in
  let content := chars "x = SID(" ++ [DQUOTE] ++ lit ++ [DQUOTE]
                   ++ chars ");" in
  let fs : gmap string (list ascii) := {[ "a.c" := content ]} in
  let h := hash_fold byte_value lit in
  raw_literal lit ∧ int_size content
  ∧ tsLiteral (input_block content) 9 = Ok 12
  ∧ range (input_block content) 9 12 = lit
  ∧ djb2 (abi := x86_64) (input_block content) 9 12 = Ok h
  ∧ (∃ o, tsScan (H := x86_64) "a.c" content = Ok (inr (o, true))
          ∧ in_block content o
          ∧ length (cells o) = 4 + (19 + length lit) + 1
          ∧ cells o
            = (Some <$> chars "x = 0x" ++ hex8 h ++ chars " /* " ++ [DQUOTE]
                 ++ chars "a" ++ [DQUOTE] ++ chars " */")
              ++ [Some NUL; None; Some ";"%char]
          ∧ cells o ≠ (Some <$> chars "x = " ++ replacement h lit
                         ++ chars ";"))
  ∧ tsPreprocess_int (H := x86_64) fs "a.c" "b.c"
    = Undefined IndeterminateOutput.
Proof.
  intros lit content fs h.
  split; [by repeat (apply raw_byte; [done..|]); apply raw_nil|].
  split; [by vm_compute|].
  split; [by vm_compute|]. split; [reflexivity|]. split; [by vm_compute|].
  split.
  - eexists. split; [vm_compute; reflexivity|].
    split; [vm_compute; lia|]. split; [reflexivity|].
    split; [reflexivity|]. vm_compute. discriminate.
  - by vm_compute.
Qed.

(** C6, as amended.  For every file of fewer than 2^30 bytes, so that
    [size * 2] is a value of [int], in which the trigger does not occur,
    [tsPreprocess] returns 0, prints nothing and writes no file: the files,
    the one at [out_path] among them, are what they were; the stores of the
    run stay inside the output block; and a second run does what the first
    did. *)
Theorem untriggered_file_untouched `{Abi} (fs : gmap string (list ascii))
  (path out_path : string) (content : list ascii) :
  fs !! path = Some content → no_trigger content → int_size content →
  tsPreprocess_int fs path out_path
  = Ok {| returned := 0; files := fs; printed := [] |}
  ∧ (∃ o, tsScan path content = Ok (inr (o, false)) ∧ in_block content o)
  ∧ ∀ e, tsPreprocess_int fs path out_path = Ok e →
         files e !! out_path = fs !! out_path
         ∧ tsPreprocess_int (files e) path out_path = Ok e.
Proof.
  intros Hfs Hno Hsize.
  destruct (tsScan_untriggered_block path content Hno) as (o & Escan & Hblock).
  assert (tsPreprocess_int fs path out_path
          = Ok {| returned := 0; files := fs; printed := [] |}) as E.
  { rewrite (tsPreprocess_int_fits _ _ _ _ Hfs Hsize).
    unfold tsPreprocess. by rewrite Hfs, Escan. }
  split; [exact E|]. split; [by exists o|].
  intros e He. rewrite E in He. injection He as <-. simpl. by rewrite E.
Qed.

Lemma untriggered_file_untouched_witness :
  let once := chars "x = 0x0002b61d /* " ++ [DQUOTE] ++ chars "x"
                ++ [DQUOTE] ++ chars " */;" in
  let fs : gmap string (list ascii) := {[ "a.c" := once ]} in
  no_trigger once ∧ int_size once
  ∧ tsPreprocess_int (H := x86_64) fs "a.c" "a.c"
    = Ok {| returned := 0; files := fs; printed := [] |}.
Proof.
  intros once fs.
  assert (no_trigger once) as Hno by (apply has_trigger_false; reflexivity).
  assert (int_size once) as Hsize by (by vm_compute).
  split; [exact Hno|]. split; [exact Hsize|].
  apply (untriggered_file_untouched (H := x86_64) fs "a.c" "a.c" once);
    [apply lookup_singleton_eq | exact Hno | exact Hsize].
Defined.

(** C6, as stated, fails for a file of 2^30 bytes: the file of 2^30 bytes a
    holds no trigger, and [size * 2] is no value of [int], so that the call
    is undefined and does not return 0. *)
Lemma untriggered_file_size_overflow :
  let content := replicate (Z.to_nat (2 ^ 30)) "a"%char in
  let fs : gmap string (list ascii) := {[ "a.c" := content ]} in
  no_trigger content
  ∧ tsPreprocess_int (H := x86_64) fs "a.c" "b.c" = Undefined IntOverflow
  ∧ tsPreprocess_int (H := x86_64) fs "a.c" "b.c"
    ≠ Ok {| returned := 0; files := fs; printed := [] |}.
Proof.
  intros content fs.
  assert (tsPreprocess_int (H := x86_64) fs "a.c" "b.c"
          = Undefined IntOverflow) as E.
  { unfold tsPreprocess_int, fs. rewrite lookup_singleton_eq.
    apply decide_False. unfold int_size, content.
    rewrite length_replicate, Z2Nat.id by lia.
    change (2 ^ 30)%Z with 1073741824%Z. unfold INT_MAX. lia. }
  split; [|split; [exact E | by rewrite E]].
  unfold content. generalize (Z.to_nat (2 ^ 30)). intros n.
  apply no_trigger_none. apply Forall_replicate. discriminate.
Qed.

(** C7, at a failing input.  In the 8-byte file SID("ok" the parenthesis
    is missing, and [sprintf] has stored the 21 bytes of the replacement
    and their terminator, 22 bytes from the start of the block of
    [malloc( size * 2 )] that has 16, before the test for the parenthesis:
    the output block is overrun before the diagnostic, by the defect of
    C4.  Whenever the scan of a file of fewer than 2^30 bytes reaches a
    trigger whose invocation is malformed (after the trigger and optional
    whitespace no double quote follows; or after the literal and optional
    whitespace no closing parenthesis follows) and the stores made when the
    body of the loop is left are inside the block, [tsPreprocess] prints
    one message that names the file, returns 0 and writes nothing: every
    file is what it was, whatever replacements the output already holds.
    So it is for the files SID(nope), hash = SID("ok" and
    SID("a") SID(nope). *)
Theorem malformed_invocation_aborts `{Abi} (fs : gmap string (list ascii))
  (path out_path : string) (content : list ascii) (p : nat)
  (o oa : outbuf) :
  fs !! path = Some content → int_size content →
  triggered (input_block content) path p o →
  malformed (input_block content) p →
  tsBody_stores (input_block content) p o = Ok oa → in_block content oa →
  let ok := [DQUOTE] ++ chars "ok" ++ [DQUOTE] in
  (∃ m, tsPreprocess_int fs path out_path
        = Ok {| returned := 0; files := fs; printed := [m] |}
        ∧ names_file m path)
  ∧ (∃ o22,
       triggered (input_block (chars "SID(" ++ ok)) path 0 out_start
       ∧ malformed (input_block (chars "SID(" ++ ok)) 0
       ∧ tsBody_stores (input_block (chars "SID(" ++ ok)) 0 out_start
         = Ok o22
       ∧ peak o22 = 22 ∧ capacity (chars "SID(" ++ ok) = 16
       ∧ ¬ in_block (chars "SID(" ++ ok) o22)
  ∧ (∀ fs path out_path,
       fs !! path = Some (chars "SID(nope)") →
       tsPreprocess_int fs path out_path
       = Ok {| returned := 0; files := fs; printed := [OnlyStrings path] |})
  ∧ (∀ fs path out_path,
       fs !! path = Some (chars "hash = SID(" ++ ok) →
       tsPreprocess_int fs path out_path
       = Ok {| returned := 0; files := fs;
               printed := [MissingParen path []] |}
       ∧ ∃ o29,
           tsBody_stores (input_block (chars "hash = SID(" ++ ok)) 7
             (puts (chars "hash = ") out_start) = Ok o29
           ∧ peak o29 = 29 ∧ in_block (chars "hash = SID(" ++ ok) o29)
  ∧ (∀ fs path out_path,
       fs !! path = Some (chars "SID(" ++ [DQUOTE] ++ chars "a" ++ [DQUOTE]
                            ++ chars ") SID(nope)") →
       tsPreprocess_int fs path out_path
       = Ok {| returned := 0; files := fs; printed := [OnlyStrings path] |}).
Proof.
  intros Hfs Hsize Htr Hbad _ _ ok. split; [|split; [|split; [|split]]].
  - assert (∃ m, tsBody (input_block content) path p o = Ok (inl m)
                 ∧ names_file m path) as (m & Hb & Hm).
    { destruct Hbad as [(ws & c & rest & E & Hws & Hc & Hq)
                       |(ws1 & lit & ws2 & c & rest & E & Hws1 & Hraw & Hws2
                         & Hc & Hr)].
      - exists (OnlyStrings path). split; [|done].
        by eapply tsBody_not_string.
      - eexists. split.
        + rewrite (tsBody_literal _ path p o _ _ _ _ _ E Hws1 Hraw Hws2 Hc).
          by rewrite decide_True.
        + done. }
    exists m. split; [|done].
    rewrite (tsPreprocess_int_fits _ _ _ _ Hfs Hsize).
    apply tsPreprocess_skipped with (content := content); [done|].
    rewrite (triggered_scan _ _ _ _ Htr), Hb. done.
  - destruct H as [[|]].
    + eexists. split; [|split; [|split; [|split; [|split]]]].
      * exists 0, out_start, false. split; [apply head_entry | by vm_compute].
      * right. exists [], (chars "ok"), [], NUL, []. split; [reflexivity|].
        split; [constructor|]. split.
        { do 2 (apply raw_byte; [done..|]). apply raw_nil. }
        split; [constructor|]. split; done.
      * vm_compute. reflexivity.
      * reflexivity.
      * reflexivity.
      * unfold in_block. vm_compute. lia.
    + eexists. split; [|split; [|split; [|split; [|split]]]].
      * exists 0, out_start, false. split; [apply head_entry | by vm_compute].
      * right. exists [], (chars "ok"), [], NUL, []. split; [reflexivity|].
        split; [constructor|]. split.
        { do 2 (apply raw_byte; [done..|]). apply raw_nil. }
        split; [constructor|]. split; done.
      * vm_compute. reflexivity.
      * reflexivity.
      * reflexivity.
      * unfold in_block. vm_compute. lia.
  - intros fs' path' out_path' Hfs'.
    rewrite (tsPreprocess_int_fits _ _ _ _ Hfs') by by vm_compute.
    by apply tsPreprocess_skipped with (content := chars "SID(nope)").
  - intros fs' path' out_path' Hfs'.
    rewrite (tsPreprocess_int_fits _ _ _ _ Hfs') by by vm_compute.
    split.
    + eapply tsPreprocess_skipped; [exact Hfs'|].
      destruct H as [[|]]; by vm_compute.
    + destruct H as [[|]]; (eexists; split; [vm_compute; reflexivity|];
        split; [reflexivity | unfold in_block; vm_compute; lia]).
  - intros fs' path' out_path' Hfs'.
    rewrite (tsPreprocess_int_fits _ _ _ _ Hfs') by by vm_compute.
    eapply tsPreprocess_skipped; [exact Hfs'|].
    destruct H as [[|]]; by vm_compute.
Qed.

Lemma malformed_invocation_aborts_witness :
  let content := chars "SID(" ++ [DQUOTE] ++ chars "a" ++ [DQUOTE]
                   ++ chars ") SID( nope)" in
  let fs : gmap string (list ascii) :=
    {[ "a.c" := content; "b.c" := chars "kept" ]} in
  let o := putc " " (print_advance (sid_text 177670 (chars "a")) 20
                                   out_start) in
  triggered (abi := x86_64) (input_block content) "a.c" 9 o
  ∧ malformed (input_block content) 9
  ∧ tsBody_stores (abi := x86_64) (input_block content) 9 o = Ok o
  ∧ in_block content o
  ∧ ∃ m, tsPreprocess_int (H := x86_64) fs "a.c" "b.c"
         = Ok {| returned := 0; files := fs; printed := [m] |}
         ∧ names_file m "a.c".
Proof.
  intros content fs o.
  assert (triggered (abi := x86_64) (input_block content) "a.c" 9 o) as Htr.
  { eexists _, _, _. split.
    - eapply (head_again _ _ 0 out_start false 0 out_start);
        [apply head_entry | reflexivity | vm_compute; reflexivity].
    - vm_compute. reflexivity. }
  assert (malformed (input_block content) 9) as Hbad.
  { left. exists (chars " "), "n"%char, (chars "ope)" ++ [NUL]).
    split; [reflexivity|]. split; [repeat constructor|]. split; done. }
  assert (tsBody_stores (abi := x86_64) (input_block content) 9 o = Ok o)
    as Hst by (vm_compute; reflexivity).
  assert (in_block content o) as Hin by (unfold in_block; vm_compute; lia).
  assert (int_size content) as Hsize by (by vm_compute).
  split; [exact Htr|]. split; [exact Hbad|]. split; [exact Hst|].
  split; [exact Hin|].
  exact (proj1 (malformed_invocation_aborts (H := x86_64) fs "a.c" "b.c"
                  content 9 o o (lookup_insert_eq _ _ _) Hsize Htr Hbad
                  Hst Hin)).
Defined.

(** C8, at its failing inputs.  For every file that is a trigger, an
    opening double quote and bytes among which there is no double quote,
    the scan for the closing quote does not stop at the NUL that ends the
    input block: it loads from outside the block, and [tsPreprocess] prints
    no message.  So it is for the literal abc and for a literal whose last
    byte is a backslash. *)
Theorem unterminated_literal_overruns `{Abi} (fs : gmap string (list ascii))
  (path out_path : string) (s : list ascii) :
  fs !! path = Some (chars "SID(" ++ DQUOTE :: s) →
  Forall (λ c, c ≠ DQUOTE) s →
  tsLiteral (input_block (chars "SID(" ++ DQUOTE :: s)) 5
  = Undefined ReadOutOfBounds
  ∧ tsPreprocess fs path out_path = Undefined ReadOutOfBounds
  ∧ tsScan path (chars "SID(" ++ DQUOTE :: chars "abc")
    = Undefined ReadOutOfBounds
  ∧ tsScan path (chars "SID(" ++ DQUOTE :: chars "abc\")
    = Undefined ReadOutOfBounds.
Proof.
  intros Hfs Hs.
  set (content := chars "SID(" ++ DQUOTE :: s).
  assert (tsLiteral (input_block content) 5 = Undefined ReadOutOfBounds) as E.
  { apply tsLiteral_loop_overrun; [|lia].
    intros i c Hi Hc Hq. subst c.
    unfold content, input_block in Hc. simpl in Hc.
    do 5 (destruct i as [|i]; [lia|]). simpl in Hc.
    apply list_elem_of_lookup_2, elem_of_app in Hc as [Hc|Hc].
    - by apply (proj1 (Forall_forall _ _) Hs DQUOTE).
    - by apply list_elem_of_singleton in Hc. }
  split; [exact E|]. split; [|split; by vm_compute].
  unfold tsPreprocess. rewrite Hfs. fold content. unfold tsScan.
  rewrite block_length, tsPreprocess_loop_S.
  assert (tsNext_internal (input_block content) 0 out_start
          = Ok (1%Z, 0, out_start)) as -> by done.
  cbn [mbind res_mbind res_bind]. rewrite decide_False by done.
  unfold tsBody.
  rewrite (tsSpaces_shape _ (0 + 4) [] DQUOTE (s ++ [NUL]));
    [|done|constructor|done].
  cbn [mbind res_mbind res_bind].
  assert (load (input_block content) (0 + 4 + length (@nil ascii))
          = Ok DQUOTE) as -> by done.
  cbn [mbind res_mbind res_bind].
  rewrite decide_False by (intros Hne; by apply Hne).
  change (S (0 + 4 + length (@nil ascii))) with 5. by rewrite E.
Qed.

Lemma unterminated_literal_overruns_witness :
  let content := chars "SID(" ++ DQUOTE :: chars "name); // no closing quote" in
  let fs : gmap string (list ascii) := {[ "a.c" := content ]} in
  Forall (λ c, c ≠ DQUOTE) (chars "name); // no closing quote")
  ∧ tsPreprocess (H := x86_64) fs "a.c" "b.c" = Undefined ReadOutOfBounds.
Proof.
  intros content fs.
  assert (Forall (λ c, c ≠ DQUOTE) (chars "name); // no closing quote")) as Hs
    by (repeat constructor; discriminate).
  split; [exact Hs|].
  apply (unterminated_literal_overruns (H := x86_64) fs "a.c" "b.c" _
           (lookup_singleton_eq _ _) Hs).
Defined.

(** At an invocation whose literal is made of plain bytes and
    backslash-escape pairs and holds no NUL, the Literal Span the scan
    finds is the raw bytes between the outer quotes, the hash is computed
    over them, and the comment reproduces them. *)
Lemma escapes_kept_raw `{Abi} (buf : list ascii) (path : string)
  (p : nat) (o : outbuf) (ws1 literal ws2 rest : list ascii) :
  drop (p + 4) buf
  = ws1 ++ DQUOTE :: literal ++ DQUOTE :: ws2 ++ RPAREN :: rest →
  Forall (λ c, isspace c = true) ws1 → Forall (λ c, isspace c = true) ws2 →
  raw_literal literal → Forall (λ c, c ≠ NUL) literal →
  let start := p + 4 + length ws1 + 1 in
  let example := chars "a\" ++ [DQUOTE] ++ chars "b" in
  (∃ d' o',
     tsBody buf path p o = Ok (inr (d', o'))
     ∧ tsLiteral buf start = Ok (start + length literal)
     ∧ range buf start (start + length literal) = literal
     ∧ djb2 buf start (start + length literal)
       = Ok (hash_fold int_of_char literal)
     ∧ cells o'
       = cells o
         ++ (Some <$> replacement (hash_fold int_of_char literal) literal))
  ∧ raw_literal example ∧ length example = 4
  ∧ (∀ fs path out_path,
       fs !! path = Some (statement example) →
       tsPreprocess fs path out_path
       = Ok {| returned := 1;
               files := <[out_path :=
                            chars "x = "
                            ++ replacement (hash_fold int_of_char example)
                                           example
                            ++ chars ";"]> fs;
               printed := [] |}).
Proof.
  intros E Hws1 Hws2 Hraw Hnul start example.
  assert (raw_literal example) as Hex.
  { apply raw_byte; [done..|]. apply raw_pair.
    apply raw_byte; [done..|]. constructor. }
  split; [|split; [done|split; [done|]]].
  - destruct (tsBody_invocation buf path p o _ _ _ _ E Hws1 Hws2 Hraw Hnul)
      as (o' & Hb & Hc).
    apply drop_app_shift, drop_cons_lookup in E as [_ E].
    replace (S (p + 4 + length ws1)) with start in E by (unfold start; lia).
    eexists _, o'. split; [exact Hb|].
    split; [by eapply tsLiteral_shape|].
    split; [by eapply range_holds|].
    split; [|done].
    rewrite (djb2_holds _ _ _ _ E). unfold hash_fold.
    by rewrite fold_djb2_step.
  - intros fs path' out_path Hfs.
    apply tsPreprocess_statement; [done| |done].
    repeat constructor; discriminate.
Qed.

(** C9, at a failing input.  In the 17-byte file x = SID(...); whose
    literal is a, backslash, double quote, NUL, b, the literal holds an
    escape pair and a NUL.  The Literal Span the scan
    finds is the 5 raw bytes between the outer quotes, the pair included,
    and the hash is computed over exactly these bytes, as the claim says.
    The run stays inside the output block of 34 bytes; but [%.*s] stops at
    the NUL, so the comment reproduces only the 3 bytes before it, and
    behind the text come the terminator of [sprintf] and a cell that no
    store has reached. *)
Theorem escaped_literal_cut_at_nul :
  let lit := chars "a\" ++ [DQUOTE; NUL] ++ chars "b" in
  let content := chars "x = SID(" ++ [DQUOTE] ++ lit ++ [DQUOTE]
                   ++ chars ");" in
  let fs : gmap string (list ascii) := {[ "a.c" := content ]} in
  let h := hash_fold byte_value lit in
  raw_literal lit ∧ int_size content
  ∧ tsLiteral (input_block content) 9 = Ok 14
  ∧ range (input_block content) 9 14 = lit
  ∧ djb2 (abi := x86_64) (input_block content) 9 14 = Ok h
  ∧ (∃ o, tsScan (H := x86_64) "a.c" content = Ok (inr (o, true))
          ∧ in_block content o
          ∧ length (cells o) = 4 + (19 + length lit) + 1
          ∧ cells o
            = (Some <$> chars "x = 0x" ++ hex8 h ++ chars " /* " ++ [DQUOTE]
                 ++ chars "a\" ++ [DQUOTE; DQUOTE] ++ chars " */")
              ++ [Some NUL; None; Some ";"%char]
          ∧ cells o ≠ (Some <$> chars "x = " ++ replacement h lit
                         ++ chars ";"))
  ∧ tsPreprocess_int (H := x86_64) fs "a.c" "b.c"
    = Undefined IndeterminateOutput.
Proof.
  intros lit content fs h.
  split.
  { apply raw_byte; [done..|]. apply raw_pair.
    apply raw_byte; [done..|]. apply raw_byte; [done..|]. constructor. }
  split; [by vm_compute|].
  split; [by vm_compute|]. split; [reflexivity|]. split; [by vm_compute|].
  split.
  - eexists. split; [vm_compute; reflexivity|].
    split; [vm_compute; lia|]. split; [reflexivity|].
    split; [reflexivity|]. vm_compute. discriminate.
  - by vm_compute.
Qed.

(** C10.  An occurrence of the four bytes of the trigger that an
    alphanumeric byte immediately precedes is never reported as a trigger
    to [tsPreprocess].  Standing at the first byte of an alphanumeric run
    that ends in S, I, D before the parenthesis, the scanner copies the
    whole run and the parenthesis to the output and goes on behind them.
    So the files id = ASID("x"); and id = ENDSID("x"); are copied byte for
    byte and left unmodified, whereas in id = _SID("x"); the invocation
    after the underscore is replaced. *)
Theorem alnum_before_trigger `{Abi} (content : list ascii) (path : string)
  (p : nat) (c : ascii) :
  0 < p → input_block content !! (p - 1) = Some c → isalnum c = true →
  let x := [DQUOTE] ++ chars "x" ++ [DQUOTE] ++ chars ");" in
  (∀ o, ¬ triggered (input_block content) path p o)
  ∧ (∀ d o run rest,
       drop d (input_block content) = run ++ chars "SID(" ++ rest →
       run ≠ [] → Forall (λ c, isalnum c = true) run →
       tsNext_internal (input_block content) d o
       = tsNext_internal (input_block content) (d + length run + 4)
           (puts (run ++ chars "SID(") o))
  ∧ tsScan path (chars "id = ASID(" ++ x)
    = Ok (inr (puts (chars "id = ASID(" ++ x) out_start, false))
  ∧ tsScan path (chars "id = ENDSID(" ++ x)
    = Ok (inr (puts (chars "id = ENDSID(" ++ x) out_start, false))
  ∧ (∀ fs out_path,
       fs !! path = Some (chars "id = _SID(" ++ x) →
       tsPreprocess fs path out_path
       = Ok {| returned := 1;
               files := <[out_path :=
                            chars "id = _"
                            ++ replacement (hash_fold int_of_char (chars "x"))
                                           (chars "x")
                            ++ chars ";"]> fs;
               printed := [] |}).
Proof.
  intros Hp Hc Hal x. split; [|split; [|split; [|split]]].
  - intros o Htr. apply triggered_spec in Htr as (_ & _ & Hb).
    rewrite (Hb c Hp Hc) in Hal. discriminate.
  - intros d o run rest. apply tsNext_internal_run.
  - by vm_compute.
  - by vm_compute.
  - intros fs out_path Hfs.
    destruct H as [[|]];
      (eapply tsPreprocess_written; [exact Hfs | by vm_compute | by vm_compute]).
Qed.

Lemma alnum_before_trigger_witness :
  let content := chars "id = ASID(" ++ [DQUOTE] ++ chars "x" ++ [DQUOTE]
                   ++ chars ");" in
  input_block content !! 5 = Some "A"%char
  ∧ isalnum "A" = true
  ∧ holds (input_block content) 6 (chars "SID(")
  ∧ ∀ o, ¬ triggered (abi := x86_64) (input_block content) "a.c" 6 o.
Proof.
  intros content. split; [reflexivity|]. split; [reflexivity|].
  split; [by eexists|].
  apply (alnum_before_trigger (H := x86_64) content "a.c" 6 "A"%char);
    [lia | reflexivity | reflexivity].
Defined.

(** * Further properties of the code *)

(** ** djb2 outside its range *)

Section HashEdges.
Context {abi : Abi}.

Lemma djb2_loop_overrun fuel mem h str end_ :
  str ≠ end_ → ¬ (str ≤ end_ ≤ length mem) → length mem - str < fuel →
  djb2_loop fuel mem h str end_ = Undefined ReadOutOfBounds.
Proof.
  revert h str. induction fuel as [|fuel IH]; intros h str Hne Hout Hf; [lia|].
  simpl. rewrite decide_False by done. unfold load.
  destruct (mem !! str) as [c|] eqn:Hc; [|done].
  apply lookup_lt_Some in Hc. cbn [mbind res_mbind res_bind].
  apply IH; lia.
Qed.

(** X5.  [djb2] returns a value exactly when its two pointers are equal or
    delimit a range inside the block, [str <= end <= block end]; the value
    is then the fold of the step over the bytes of the range and lies in
    [0, 2^32).  In every other case, [end] before [str] or behind the
    block, the loop walks off the block: a load out of bounds. *)
Theorem djb2_defined_range (mem : list ascii) (str end_ : nat) :
  djb2 mem str end_
  = (if decide (str = end_ ∨ str ≤ end_ ≤ length mem)
     then Ok (fold_left djb2_step (range mem str end_) 5381%Z)
     else Undefined ReadOutOfBounds)
  ∧ ∀ h, djb2 mem str end_ = Ok h → (0 ≤ h < 2 ^ 32)%Z.
Proof.
  split; [|apply djb2_bound].
  destruct (decide (str = end_ ∨ str ≤ end_ ≤ length mem)) as [[->|Hin]|Hout].
  - unfold djb2. simpl. rewrite decide_True by done.
    by rewrite range_nil.
  - by apply djb2_range.
  - unfold djb2. apply djb2_loop_overrun; [|lia..].
    intros ->. apply Hout. by left.
Qed.

(** X6.  Hashing composes along a range: for [a <= b <= c] inside the
    block, the hash of [[a, c)] is the fold of the step over [[b, c)]
    started from the hash of [[a, b)]; hashing can be resumed where it
    stopped, and a common prefix is hashed once. *)
Theorem djb2_resumes (mem : list ascii) (a b c : nat) :
  a ≤ b → b ≤ c → c ≤ length mem →
  ∃ h1, djb2 mem a b = Ok h1
        ∧ djb2 mem a c = Ok (fold_left djb2_step (range mem b c) h1)
        ∧ djb2 mem a c
          = djb2_loop (S (length mem - b)) mem h1 b c.
Proof.
  intros Hab Hbc Hc.
  exists (fold_left djb2_step (range mem a b) 5381%Z).
  assert (range mem a c = range mem a b ++ range mem b c) as Hsplit.
  { unfold range. replace (c - a) with ((b - a) + (c - b)) by lia.
    rewrite take_drop_split. by replace (a + (b - a)) with b by lia. }
  split; [apply djb2_range; lia|]. split.
  - rewrite djb2_range by lia. by rewrite Hsplit, fold_left_app.
  - rewrite djb2_range by lia. rewrite Hsplit, fold_left_app.
    symmetry.
    pose proof (take_drop (c - b) (drop b mem)) as E. symmetry in E.
    pose proof (djb2_loop_range (S (length mem - b)) mem
                  (fold_left djb2_step (range mem a b) 5381%Z) b _ _ E) as L.
    rewrite length_take, length_drop in L.
    replace (b + (c - b) `min` (length mem - b)) with c in L by lia.
    apply L. lia.
Qed.

End HashEdges.

Lemma djb2_resumes_witness :
  2 ≤ 4 ∧ 4 ≤ 6 ∧ 6 ≤ length (chars "a.player") ∧
  ∃ h1, djb2 (abi := x86_64) (chars "a.player") 2 4 = Ok h1
        ∧ djb2 (abi := x86_64) (chars "a.player") 2 6
          = Ok (fold_left (djb2_step (abi := x86_64)) (chars "ay") h1).
Proof.
  assert (2 ≤ 4) as H1 by lia. assert (4 ≤ 6) as H2 by lia.
  assert (6 ≤ length (chars "a.player")) as H3 by (simpl; lia).
  split; [exact H1|]. split; [exact H2|]. split; [exact H3|].
  destruct (djb2_resumes (abi := x86_64) (chars "a.player") 2 4 6 H1 H2 H3)
    as (h1 & E1 & E2 & _).
  exists h1. split; [exact E1 | exact E2].
Defined.

(** ** The digits of the hash *)

(** X7.  What [%.8x] prints for a 32-bit value is eight lowercase
    hexadecimal digits that denote the value: reading them back gives the
    value, so two values with the same digits are equal. *)
Theorem hex8_round_trip (h1 h2 : Z) :
  (0 ≤ h1 < 2 ^ 32)%Z → (0 ≤ h2 < 2 ^ 32)%Z →
  length (hex8 h1) = 8 ∧ Forall lower_hex (hex8 h1)
  ∧ hex_value (hex8 h1) = h1
  ∧ (hex8 h1 = hex8 h2 → h1 = h2).
Proof.
  intros Hh1 Hh2. split; [done|]. split; [apply hex8_lower|].
  split; [by apply hex_value_hex8|].
  intros E. rewrite <- (hex_value_hex8 h1), <- (hex_value_hex8 h2) by done.
  by rewrite E.
Qed.

Lemma hex8_round_trip_witness :
  (0 ≤ 4294967295 < 2 ^ 32)%Z ∧ (0 ≤ 5381 < 2 ^ 32)%Z
  ∧ hex8 4294967295 = chars "ffffffff"
  ∧ hex_value (hex8 4294967295) = 4294967295%Z.
Proof.
  assert (0 ≤ 4294967295 < 2 ^ 32)%Z as H1 by lia.
  assert (0 ≤ 5381 < 2 ^ 32)%Z as H2 by lia.
  split; [exact H1|]. split; [exact H2|]. split; [reflexivity|].
  apply (hex8_round_trip 4294967295 5381 H1 H2).
Defined.

(** ** The scan for the closing quote *)

(** X8.  The scan for the closing quote returns an offset exactly when the
    block holds, from where the scan starts, bytes other than backslash and
    double quote and backslash pairs, and then a double quote: the offset
    is that of this double quote, the first one that no backslash
    escapes. *)
Theorem tsLiteral_first_unescaped_quote (buf : list ascii) (p q : nat) :
  tsLiteral buf p = Ok q
  ↔ ∃ literal rest,
      drop p buf = literal ++ DQUOTE :: rest ∧ raw_literal literal
      ∧ q = p + length literal.
Proof.
  split.
  - intros E. apply tsLiteral_loop_inv in E as (Hle & Hq & Hraw).
    exists (range buf p q), (drop (S q) buf).
    pose proof (lookup_lt_Some _ _ _ Hq) as Hlt.
    split; [|split; [done|]].
    + rewrite <- (drop_lookup_cons _ _ _ Hq). unfold range.
      rewrite <- (take_drop (q - p) (drop p buf)) at 1.
      rewrite drop_drop. by replace (p + (q - p)) with q by lia.
    + rewrite range_length by lia. lia.
  - intros (literal & rest & E & Hraw & ->). by eapply tsLiteral_shape.
Qed.

(** ** The scanner and the NUL *)

Lemma range_split (block : list ascii) a b c :
  a ≤ b → b ≤ c → range block a c = range block a b ++ range block b c.
Proof.
  intros Hab Hbc. unfold range.
  replace (c - a) with ((b - a) + (c - b)) by lia.
  rewrite take_drop_split. by replace (a + (b - a)) with b by lia.
Qed.

Lemma range_snoc (block : list ascii) a b c :
  a ≤ b → block !! b = Some c → range block a (S b) = range block a b ++ [c].
Proof.
  intros Hab Hc. rewrite (range_split block a b (S b)) by lia.
  by rewrite (range_cons _ _ _ _ Hc), range_nil by lia.
Qed.

Section ScannerInversion.
Variable buf : list ascii.

Lemma tsCopyWhile_loop_inv test fuel d o d' o' :
  tsCopyWhile_loop buf test fuel d o = Ok (d', o') →
  d ≤ d' ∧ Forall (λ c, test c = true) (range buf d d')
  ∧ o' = puts (range buf d d') o
  ∧ ∃ c, buf !! d' = Some c ∧ test c = false.
Proof.
  revert d o. induction fuel as [|fuel IH]; intros d o E; simpl in E; [done|].
  apply bind_Ok_inv in E as (c & Hc & E). apply load_Ok in Hc.
  destruct (test c) eqn:Ht.
  - apply IH in E as (Hle & Hall & -> & Hstop).
    split; [lia|]. rewrite (range_cons _ _ _ _ Hc) by lia.
    split; [by constructor|]. split; [done|done].
  - injection E as <- <-. rewrite range_nil.
    split; [lia|]. split; [constructor|]. split; [done|eauto].
Qed.

Lemma tsMatch_loop_inv pat d idx e :
  tsMatch_loop buf pat d idx = Ok e →
  Forall (λ c, c ≠ NUL) (range buf d (match e with
                                      | MatchBreak _ d' _ | MatchEnd d' => d'
                                      end))
  ∧ match e with
    | MatchBreak _ d' idx' => ∃ k, d' = d + k ∧ idx' = idx + k
    | MatchEnd d' => d ≤ d' ∧ buf !! d' = Some NUL
    end.
Proof.
  revert d idx. induction pat as [|m pat IH]; intros d idx E; simpl in E.
  - injection E as <-. rewrite range_nil. split; [constructor|].
    exists 0. lia.
  - apply bind_Ok_inv in E as (c & Hc & E). apply load_Ok in Hc.
    destruct (is_nul c) eqn:Hn.
    { injection E as <-. apply is_nul_true in Hn. subst c.
      rewrite range_nil. split; [constructor|]. split; [lia | done]. }
    apply is_nul_false in Hn.
    destruct (decide (c = m)) as [->|Hne].
    + apply IH in E as (Hall & He).
      destruct e as [b d' idx'|d'].
      * destruct He as (k & -> & ->).
        split; [|exists (S k); lia].
        rewrite (range_cons _ _ _ _ Hc) by lia. by constructor.
      * destruct He as (Hle & Hnul).
        split; [|split; [lia | done]].
        rewrite (range_cons _ _ _ _ Hc) by lia. by constructor.
    + injection E as <-. rewrite range_nil. split; [constructor|].
      exists 0. lia.
Qed.

Lemma tsMatch_loop_holds pat d idx rest :
  drop d buf = pat ++ rest → Forall (λ c, c ≠ NUL) pat →
  tsMatch_loop buf pat d idx
  = Ok (MatchBreak true (d + length pat) (idx + length pat)).
Proof.
  revert d idx. induction pat as [|m pat IH]; intros d idx E Hp; simpl.
  - by rewrite !Nat.add_0_r.
  - simpl in E. apply drop_cons_lookup in E as [Hm E].
    inversion Hp as [|? ? Hn Hp']; subst.
    rewrite (proj2 (load_Ok _ _ _) Hm). cbn [mbind res_mbind res_bind].
    rewrite (proj2 (is_nul_false m) Hn), decide_True by done.
    rewrite (IH (S d) (S idx) E Hp'). do 2 f_equal; lia.
Qed.

Lemma tsNext_loop_step fuel data out :
  tsNext_loop buf (S fuel) data out
  = (c ← load buf data;
     if is_nul c then Ok (0%Z, data, out)
     else
       '(data, out) ← tsSkipWhite_internal buf data out;
       c ← load buf data;
       if is_nul c then Ok (0%Z, data, out)
       else if negb (isalnum c)
            then tsNext_loop buf fuel (S data) (putc c out)
       else
         e ← tsMatch_loop buf (chars "SID(") data 0;
         match e with
         | MatchEnd data => Ok (0%Z, data, out)
         | MatchBreak matched data index =>
             let data := data - index in
             if matched then Ok (1%Z, data, out)
             else
               '(data, out) ← tsCopyAlnum buf data out;
               tsNext_loop buf fuel data out
         end).
Proof. done. Qed.

(** Between the offset at which it is entered and the offset it returns,
    the outer loop meets no NUL; and it returns 0 only at a NUL. *)
Lemma tsNext_loop_nul fuel d o found d' o' :
  tsNext_loop buf fuel d o = Ok (found, d', o') →
  d ≤ d' ∧ Forall (λ c, c ≠ NUL) (range buf d d')
  ∧ (found = 0%Z → buf !! d' = Some NUL).
Proof.
  revert d o. induction fuel as [|fuel IH]; intros d o E; [done|].
  rewrite tsNext_loop_step in E.
  apply bind_Ok_inv in E as (c & Hc & E). apply load_Ok in Hc.
  destruct (is_nul c) eqn:Hn.
  { injection E as <- <- <-. apply is_nul_true in Hn. subst c.
    rewrite range_nil. split; [lia|]. split; [constructor | done]. }
  apply bind_Ok_inv in E as ([d1 o1] & E1 & E).
  apply tsCopyWhile_loop_inv in E1 as (Hle1 & Hsp & _ & _).
  assert (Forall (λ c, c ≠ NUL) (range buf d d1)) as Hnn1.
  { eapply Forall_impl; [exact Hsp|]. intros x. apply isspace_not_nul. }
  apply bind_Ok_inv in E as (c1 & Hc1 & E). apply load_Ok in Hc1.
  destruct (is_nul c1) eqn:Hn1.
  { injection E as <- <- <-. apply is_nul_true in Hn1. subst c1.
    split; [lia|]. split; done. }
  apply is_nul_false in Hn1.
  destruct (negb (isalnum c1)).
  - apply IH in E as (Hle & Hnn & Hz).
    split; [lia|]. split; [|done].
    rewrite (range_split buf d (S d1) d') by lia.
    rewrite (range_snoc _ _ _ _ Hle1 Hc1).
    apply Forall_app. split; [|done].
    apply Forall_app. split; [done|]. by constructor.
  - apply bind_Ok_inv in E as (e & Em & E).
    apply tsMatch_loop_inv in Em as (Hnm & He).
    destruct e as [[|] d2 idx|d2].
    + destruct He as (k & -> & ->). injection E as <- <- <-.
      replace (d1 + k - k) with d1 by lia.
      split; [lia|]. split; [done|]. intros ?. discriminate.
    + destruct He as (k & -> & ->).
      replace (d1 + k - (0 + k)) with d1 in E by lia.
      apply bind_Ok_inv in E as ([d3 o3] & E3 & E).
      apply tsCopyWhile_loop_inv in E3 as (Hle3 & Hal & _ & _).
      apply IH in E as (Hle & Hnn & Hz).
      split; [lia|]. split; [|done].
      rewrite (range_split buf d d3 d'), (range_split buf d d1 d3) by lia.
      apply Forall_app. split; [|done].
      apply Forall_app. split; [done|].
      eapply Forall_impl; [exact Hal|]. intros x. apply isalnum_not_nul.
    + destruct He as (Hle2 & Hnul). injection E as <- <- <-.
      split; [lia|]. split; [|done].
      rewrite (range_split buf d d1 d2) by lia.
      apply Forall_app. by split.
Qed.
End ScannerInversion.

Lemma range_lookup (block : list ascii) a b i :
  a ≤ i → i < b → range block a b !! (i - a) = block !! i.
Proof.
  intros Hai Hib. unfold range.
  rewrite lookup_take_lt, lookup_drop by lia. f_equal. lia.
Qed.

Lemma range_take_drop (block : list ascii) d n :
  d + n ≤ length block → range block d (d + n) = take n (drop d block).
Proof. intros _. unfold range. f_equal. lia. Qed.

Lemma holds_in_prefix (pre tail : list ascii) p s rest :
  drop p (pre ++ tail) = s ++ rest → p + length s ≤ length pre →
  ∃ a b, pre = a ++ s ++ b.
Proof.
  intros E Hle. rewrite drop_app_le in E by lia.
  apply (f_equal (take (length s))) in E.
  rewrite take_app_le, take_app_length in E by (rewrite length_drop; lia).
  exists (take p pre), (drop (length s) (drop p pre)).
  rewrite <- (take_drop p pre) at 1. f_equal.
  rewrite <- (take_drop (length s) (drop p pre)) at 1. by rewrite E.
Qed.

Section ScannerContract.
Variable content : list ascii.
Local Abbreviation buf := (input_block content).

(** X3.  Entered at an offset inside the block, [tsNext_internal] returns
    0 or 1 with the read cursor not before where it was and inside the
    block; no byte it passed is a NUL, and what it stored is a copy of a
    prefix of the bytes it passed.  It returns 0 only with the cursor at a
    NUL.  When it returns 1 the cursor is at the first byte of the four
    bytes of the trigger, not behind them, and every byte it passed has
    been copied. *)
Theorem tsNext_internal_contract (d : nat) (o : outbuf) :
  d ≤ length content →
  ∃ found d' o',
    tsNext_internal buf d o = Ok (found, d', o')
    ∧ d ≤ d' ≤ length content
    ∧ Forall (λ c, c ≠ NUL) (range buf d d')
    ∧ (∃ k, k ≤ d' - d ∧ o' = puts (take k (drop d buf)) o)
    ∧ ((found = 0%Z ∧ buf !! d' = Some NUL)
       ∨ (found = 1%Z ∧ holds buf d' (chars "SID(")
          ∧ o' = puts (range buf d d') o)).
Proof.
  intros Hd.
  destruct (tsNext_internal_spec content d o Hd)
    as ([[found d'] o'] & E & Hin & k & Ho & Hk & Hf).
  exists found, d', o'. split; [exact E|]. split; [exact Hin|].
  unfold tsNext_internal in E.
  apply tsNext_loop_nul in E as (_ & Hnn & Hz).
  split; [exact Hnn|]. split; [by exists k|].
  destruct Hf as [->|(-> & -> & Hh & _ & _)].
  - left. auto.
  - right. split; [done|]. split; [done|]. exact Ho.
Qed.

(** X4.  [tsSkipWhite_internal], entered inside the block, copies the
    whitespace bytes at the cursor and stops at the first byte that is not
    whitespace, which it neither copies nor consumes; both cursors advance
    by the length of the run, and by nothing when the byte at the cursor is
    not whitespace.  It never leaves the block: the NUL that ends the block
    is not whitespace. *)
Theorem tsSkipWhite_internal_run (d : nat) (o : outbuf) :
  d ≤ length content →
  ∃ d',
    tsSkipWhite_internal buf d o = Ok (d', puts (range buf d d') o)
    ∧ d ≤ d' ≤ length content
    ∧ length (cells (puts (range buf d d') o)) = length (cells o) + (d' - d)
    ∧ Forall (λ c, isspace c = true) (range buf d d')
    ∧ (∃ c, buf !! d' = Some c ∧ isspace c = false)
    ∧ (∀ c, buf !! d = Some c → isspace c = false → d' = d).
Proof.
  intros Hd. unfold tsSkipWhite_internal.
  destruct (tsCopyWhile_loop_spec content isspace (S (length buf - d)) d o)
    as (n & E & Hle & Hall & Hstop); [done | done | rewrite block_length; lia|].
  pose proof (block_length content) as Hbl.
  assert (range buf d (d + n) = take n (drop d buf)) as Hr
    by (apply range_take_drop; lia).
  exists (d + n). rewrite Hr. split; [exact E|]. split; [lia|].
  split.
  { rewrite puts_cells, length_app, length_fmap, length_take, length_drop.
    lia. }
  split; [exact Hall|]. split; [exact Hstop|].
  intros c Hc Hns. destruct n as [|n]; [lia|].
  rewrite (drop_lookup_cons _ _ _ Hc) in Hall. simpl in Hall.
  apply Forall_cons in Hall as [Hs _]. congruence.
Qed.

End ScannerContract.

Lemma tsNext_internal_contract_witness :
  let content := chars "a SID(x) SI" in
  4 ≤ length content
  ∧ tsNext_internal (input_block content) 4 out_start
    = Ok (0%Z, 11, puts (chars "D(x) ") out_start)
  ∧ ∃ found d' o',
      tsNext_internal (input_block content) 4 out_start = Ok (found, d', o')
      ∧ 4 ≤ d' ≤ length content.
Proof.
  intros content.
  assert (4 ≤ length content) as Hd by (simpl; lia).
  split; [exact Hd|]. split; [reflexivity|].
  destruct (tsNext_internal_contract content 4 out_start Hd)
    as (found & d' & o' & E & Hin & _).
  exists found, d', o'. split; [exact E | exact Hin].
Defined.

Lemma tsSkipWhite_internal_run_witness :
  let content := chars "ab   cd" in
  2 ≤ length content
  ∧ ∃ d', tsSkipWhite_internal (input_block content) 2 out_start
          = Ok (d', puts (range (input_block content) 2 d') out_start)
          ∧ 2 ≤ d' ≤ length content.
Proof.
  intros content.
  assert (2 ≤ length content) as Hd by (simpl; lia).
  split; [exact Hd|].
  destruct (tsSkipWhite_internal_run content 2 out_start Hd)
    as (d' & E & Hin & _).
  exists d'. split; [exact E | exact Hin].
Defined.

(** ** Whole runs *)

Lemma written_length o bytes : written o = Ok bytes → length bytes = length (cells o).
Proof.
  unfold written. destruct (mapM id (cells o)) as [l|] eqn:E; [|done].
  intros [= <-]. apply length_mapM in E. done.
Qed.

Section WholeRuns.
Context {abi : Abi}.
Variable content : list ascii.
Variable path : string.
Local Abbreviation buf := (input_block content).

Lemma tsSpaces_loop_block fuel d :
  d ≤ length content → length content - d < fuel →
  ∃ d1, tsSpaces_loop buf fuel d = Ok d1 ∧ d ≤ d1 ≤ length content.
Proof.
  revert d. induction fuel as [|fuel IH]; intros d Hd Hf; [lia|].
  destruct (block_lookup content d Hd) as [c Hc].
  simpl. rewrite (proj2 (load_Ok _ _ _) Hc). cbn [mbind res_mbind res_bind].
  destruct (isspace c) eqn:Hs; [|exists d; split; [done | lia]].
  pose proof (block_lookup_nonnul _ _ _ Hc (isspace_not_nul _ Hs)) as Hlt.
  destruct (IH (S d)) as (d1 & -> & Hin); [lia..|].
  exists d1. split; [done | lia].
Qed.

Lemma tsLiteral_loop_fault fuel p f :
  tsLiteral_loop buf fuel p = Undefined f → f = ReadOutOfBounds.
Proof.
  revert p. induction fuel as [|fuel IH]; intros p E; simpl in E; [done|].
  unfold load in E. destruct (buf !! p) as [c|]; cbn [mbind res_mbind res_bind] in E;
    [|by injection E].
  destruct (decide (c = BACKSLASH)); [by eapply IH|].
  destruct (decide (c = DQUOTE)); [done|]. by eapply IH.
Qed.

(** Inside the body of the loop only the scan for the closing quote can
    load from outside the block. *)
Lemma tsBody_undefined p o f :
  p + 4 ≤ length content → tsBody buf path p o = Undefined f →
  f = ReadOutOfBounds
  ∧ ∃ start, p + 4 < start ∧ buf !! (start - 1) = Some DQUOTE
             ∧ tsLiteral buf start = Undefined ReadOutOfBounds.
Proof.
  intros Hp. unfold tsBody, tsSpaces.
  pose proof (block_length content) as Hbl.
  destruct (tsSpaces_loop_block (S (length buf - (p + 4))) (p + 4))
    as (d1 & -> & Hd1); [lia..|].
  cbn [mbind res_mbind res_bind].
  destruct (block_lookup content d1) as [c Hc]; [lia|].
  rewrite (proj2 (load_Ok _ _ _) Hc). cbn [mbind res_mbind res_bind].
  destruct (decide (c ≠ DQUOTE)) as [|Hq]; [done|].
  apply dec_stable in Hq. subst c.
  destruct (tsLiteral buf (S d1)) as [ptr|f'|] eqn:El;
    cbn [mbind res_mbind res_bind]; [|intros [= <-]|done].
  - pose proof El as El'. apply tsLiteral_loop_inv in El' as (Hle & Hq & _).
    assert (ptr < length content) as Hlt
      by by apply (block_lookup_nonnul _ _ _ Hq).
    rewrite djb2_range by (rewrite Hbl; lia).
    cbn [mbind res_mbind res_bind].
    destruct (tsSpaces_loop_block (S (length buf - (ptr + 1))) (ptr + 1))
      as (d2 & -> & Hd2); [lia..|].
    cbn [mbind res_mbind res_bind].
    destruct (block_lookup content d2) as [c2 Hc2]; [lia|].
    rewrite (proj2 (load_Ok _ _ _) Hc2). cbn [mbind res_mbind res_bind].
    by destruct (decide (c2 ≠ RPAREN)).
  - pose proof (tsLiteral_loop_fault _ _ _ El) as ->.
    split; [done|]. exists (S d1). simpl. rewrite Nat.sub_0_r.
    split; [lia|]. split; done.
Qed.

Lemma tsPreprocess_loop_reads fuel d o m :
  loop_head buf path d o m → length content - d < fuel →
  (∃ r, tsPreprocess_loop buf path fuel d o m = Ok r)
  ∨ (tsPreprocess_loop buf path fuel d o m = Undefined ReadOutOfBounds
     ∧ ∃ p o1 start,
         triggered buf path p o1 ∧ p + 4 < start
         ∧ buf !! (start - 1) = Some DQUOTE
         ∧ tsLiteral buf start = Undefined ReadOutOfBounds).
Proof.
  revert d o m. induction fuel as [|fuel IH]; intros d o m Hh Hf; [lia|].
  destruct (loop_head_scan _ _ _ _ _ Hh) as [Hd _].
  rewrite tsPreprocess_loop_S.
  destruct (tsNext_internal_spec content d o Hd)
    as ([[found p] o1] & Hnext & Hin & k & _ & _ & Hfound).
  rewrite Hnext. cbn [mbind res_mbind res_bind].
  destruct Hfound as [->|(-> & _ & _ & Hp4 & _)]; [left; by eexists|].
  rewrite decide_False by done.
  destruct (tsBody buf path p o1) as [[msg|[d' o']]|f|] eqn:Eb;
    cbn [mbind res_mbind res_bind].
  - left. by eexists.
  - pose proof (tsBody_bound _ _ _ _ _ _ Eb) as Hb.
    apply IH; [by eapply head_again | lia].
  - right. destruct (tsBody_undefined _ _ _ Hp4 Eb) as (-> & start & H1 & H2 & H3).
    split; [done|]. exists p, o1, start. split; [|done].
    by exists d, o, m.
  - by apply tsBody_fuel in Eb.
Qed.


(** Seven bytes of output for at most nineteen bytes of input read. *)
Lemma tsPreprocess_loop_growth fuel d o m o' m' :
  d ≤ length content →
  7 * length (cells o) ≤ 19 * d → 7 * peak o ≤ 19 * d + 7 →
  tsPreprocess_loop buf path fuel d o m = Ok (inr (o', m')) →
  7 * length (cells o') ≤ 19 * length content
  ∧ 7 * peak o' ≤ 19 * length content + 7.
Proof.
  revert d o m. induction fuel as [|fuel IH]; intros d o m Hd Hc Hpk E; [done|].
  rewrite tsPreprocess_loop_S in E.
  destruct (tsNext_internal_spec content d o Hd)
    as ([[found p] o1] & Hnext & Hin & k & -> & Hk & _).
  rewrite Hnext in E. cbn [mbind res_mbind res_bind] in E.
  set (s := take k (drop d buf)) in *.
  assert (length s ≤ k) as Hs by (unfold s; rewrite length_take; lia).
  pose proof (puts_length s o) as Hl1. pose proof (puts_peak s o) as Hp1.
  destruct (decide (found = 0%Z)).
  { injection E as <- <-. lia. }
  apply bind_Ok_inv in E as ([msg|[d' o2]] & Eb & E); [done|].
  pose proof (tsBody_bound _ _ _ _ _ _ Eb) as Hb.
  apply tsBody_inv in Eb
    as (start & ptr & h & H1 & _ & H2 & Hq & _ & _ & -> & H3 & _).
  apply IH in E; [done | lia | |].
  - rewrite print_advance_length. lia.
  - rewrite print_advance_peak, sid_text_length.
    pose proof (until_nul_length (range buf start ptr)) as Hu.
    assert (length (range buf start ptr) ≤ ptr - start)
      by (unfold range; rewrite length_take; lia).
    lia.
Qed.
End WholeRuns.

(** X2.  A run over a file returns, or loads from outside the input block;
    and the one load that can leave the block is that of the scan for the
    closing quote, at a trigger the loop has reached and behind its opening
    quote.  The loops of [tsNext_internal], the two skips of whitespace,
    [djb2] and [%.*s] stay inside the block, and no loop runs for ever. *)
Theorem reads_stay_in_block `{Abi} (path : string) (content : list ascii) :
  (∃ r, tsScan path content = Ok r)
  ∨ (tsScan path content = Undefined ReadOutOfBounds
     ∧ ∃ p o start,
         triggered (input_block content) path p o ∧ p + 4 < start
         ∧ input_block content !! (start - 1) = Some DQUOTE
         ∧ tsLiteral (input_block content) start
           = Undefined ReadOutOfBounds).
Proof.
  unfold tsScan. apply tsPreprocess_loop_reads; [apply head_entry|].
  rewrite block_length. lia.
Qed.

(** X9.  When a run reaches the test of [fileWasModified], that is, when
    it ends without a diagnostic, seven times the length of the output is
    at most nineteen times the length of the file, and the stores have
    reached at most one byte further: a replacement is at most twelve
    bytes longer than the invocation it stands for, which has at least
    seven bytes.  So the stores of such a run stay inside a block of three
    times the file size and one byte, while twice the file size is passed
    by the file SID(""), for which both bounds are met.  A run that ends
    in a diagnostic is not covered: what it has stored is not part of its
    result. *)
Theorem output_at_most_19_7 `{Abi} (path : string) (content : list ascii)
  (o : outbuf) (m : bool) :
  tsScan path content = Ok (inr (o, m)) →
  7 * length (cells o) ≤ 19 * length content
  ∧ 7 * peak o ≤ 19 * length content + 7
  ∧ peak o ≤ 3 * length content + 1
  ∧ ∀ bytes, written o = Ok bytes → 7 * length bytes ≤ 19 * length content.
Proof.
  intros E. unfold tsScan in E.
  apply tsPreprocess_loop_growth in E as [Hc Hp]; [|lia|simpl; lia..].
  split; [done|]. split; [done|]. split; [lia|].
  intros bytes Hw. apply written_length in Hw. lia.
Qed.

Lemma output_at_most_19_7_witness :
  let content := chars "SID(" ++ [DQUOTE; DQUOTE] ++ chars ")" in
  ∃ o, tsScan (H := x86_64) "a.c" content = Ok (inr (o, true))
       ∧ 7 * length (cells o) = 19 * length content
       ∧ 7 * peak o ≤ 19 * length content + 7.
Proof.
  intros content. eexists.
  assert (tsScan (H := x86_64) "a.c" content
          = Ok (inr (print_advance (sid_text 5381 []) 19 out_start, true)))
    as E by (vm_compute; reflexivity).
  split; [exact E|]. split; [reflexivity|].
  apply (output_at_most_19_7 (H := x86_64) "a.c" content _ true E).
Defined.



(** X11.  The scan of a file ends at its first NUL outside a literal: when
    the bytes before a NUL of a file of fewer than 2^30 bytes hold no
    trigger, [tsPreprocess] returns 0 and changes no file, whatever
    follows the NUL, triggers included; the stores of the run stay inside
    the output block. *)
Theorem scan_ends_at_nul `{Abi} (fs : gmap string (list ascii))
  (path out_path : string) (pre post : list ascii) :
  fs !! path = Some (pre ++ NUL :: post) → no_trigger pre →
  int_size (pre ++ NUL :: post) →
  tsPreprocess_int fs path out_path
  = Ok {| returned := 0; files := fs; printed := [] |}
  ∧ ∃ o, tsScan path (pre ++ NUL :: post) = Ok (inr (o, false))
         ∧ in_block (pre ++ NUL :: post) o.
Proof.
  intros Hfs Hno Hsize.
  set (content := pre ++ NUL :: post) in *.
  assert (∃ o, tsScan path content = Ok (inr (o, false))
               ∧ in_block content o) as (o & Escan & Hblock).
  { rewrite tsScan_first.
    destruct (tsNext_internal_spec content 0 out_start)
      as ([[found p] o1] & Hnext & Hp & k & Ho & Hk & Hf); [lia|].
    rewrite Hnext. cbn [mbind res_mbind res_bind].
    destruct Hf as [->|(-> & _ & [rest Hh] & Hle & _)].
    { eexists. split; [done|]. subst o1. unfold in_block, capacity.
      etrans; [apply puts_peak|]. rewrite length_take. simpl. lia. }
    exfalso.
    unfold tsNext_internal in Hnext.
    apply tsNext_loop_nul in Hnext as (_ & Hnn & _).
    assert (input_block content !! length pre = Some NUL) as Hnul.
    { unfold input_block, content. rewrite <- app_assoc.
      rewrite lookup_app_r by lia. by rewrite Nat.sub_diag. }
    assert (p ≤ length pre) as Hple.
    { destruct (decide (p ≤ length pre)); [done|].
      pose proof (range_lookup (input_block content) 0 p (length pre)) as Hl.
      rewrite Nat.sub_0_r, Hnul in Hl.
      by destruct (Forall_lookup_1 _ _ _ _ Hnn (Hl ltac:(lia) ltac:(lia))). }
    assert (p + 4 ≤ length pre) as Hp4.
    { destruct (decide (p + 4 ≤ length pre)); [done|].
      assert (drop p (input_block content) !! (length pre - p) = Some NUL) as Hd.
      { rewrite lookup_drop. by replace (p + (length pre - p)) with (length pre)
          by lia. }
      rewrite Hh in Hd.
      destruct (length pre - p) as [|[|[|[|j]]]] eqn:Ej; try done. lia. }
    unfold input_block, content in Hh. rewrite <- app_assoc in Hh.
    destruct (holds_in_prefix _ _ _ _ _ Hh Hp4) as (a & b & Hpre).
    by destruct (Hno a b). }
  split; [|by exists o].
  rewrite (tsPreprocess_int_fits _ _ _ _ Hfs Hsize).
  unfold tsPreprocess. by rewrite Hfs, Escan.
Qed.

Lemma scan_ends_at_nul_witness :
  let hidden := chars "SID(" ++ [DQUOTE] ++ chars "x" ++ [DQUOTE] ++ chars ")" in
  let fs : gmap string (list ascii) :=
    {[ "a.c" := chars "int a;" ++ NUL :: hidden ]} in
  no_trigger (chars "int a;") ∧ int_size (chars "int a;" ++ NUL :: hidden)
  ∧ tsPreprocess_int (H := x86_64) fs "a.c" "a.c"
    = Ok {| returned := 0; files := fs; printed := [] |}.
Proof.
  intros hidden fs.
  assert (no_trigger (chars "int a;")) as Hno
    by (apply has_trigger_false; reflexivity).
  assert (int_size (chars "int a;" ++ NUL :: hidden)) as Hsize
    by (by vm_compute).
  split; [exact Hno|]. split; [exact Hsize|].
  exact (proj1 (scan_ends_at_nul (H := x86_64) fs "a.c" "a.c"
                  (chars "int a;") hidden (lookup_singleton_eq _ _) Hno
                  Hsize)).
Defined.

(** ** The scanner over the text between invocations *)

Lemma gap_suffix a b : gap (a ++ b) → gap b.
Proof.
  intros (Hn & Ht & Hl). split; [|split].
  - by apply Forall_app in Hn as [_ ?].
  - intros pre post ->. apply (Ht (a ++ pre) post). by rewrite <- app_assoc.
  - intros c Hc. apply Hl. rewrite last_app, Hc. done.
Qed.

(** A text that does not end in an alphanumeric byte does not end in the
    first bytes of the trigger, and the trigger does not begin in it. *)
Lemma gap_no_prefix g rest k :
  gap g → g ≠ [] → take k (g ++ rest) = take k (chars "SID(") →
  k = 4 ∨ (length g ≤ k ∧ k < 4) → False.
Proof.
  intros (_ & Ht & Hl) Hne E Hk.
  destruct g as [|a [|b [|c [|e g]]]]; [done|..].
  - destruct Hk as [->|[? ?]].
    + destruct rest as [|? [|? [|? ?]]]; simplify_eq/=.
      by specialize (Hl _ eq_refl).
    + destruct k as [|[|[|[|k]]]]; simpl in *; try lia;
        destruct rest as [|? [|? ?]]; simplify_eq/=;
        by specialize (Hl _ eq_refl).
  - destruct Hk as [->|[? ?]].
    + destruct rest as [|? [|? ?]]; simplify_eq/=.
      by specialize (Hl _ eq_refl).
    + destruct k as [|[|[|[|k]]]]; simpl in *; try lia;
        destruct rest as [|? ?]; simplify_eq/=;
        by specialize (Hl _ eq_refl).
  - destruct Hk as [->|[? ?]].
    + destruct rest as [|? ?]; simplify_eq/=.
      by specialize (Hl _ eq_refl).
    + destruct k as [|[|[|[|k]]]]; simpl in *; try lia; simplify_eq/=.
      by specialize (Hl _ eq_refl).
  - destruct Hk as [->|[? ?]]; [|simpl in *; lia].
    simplify_eq/=. by apply (Ht [] g).
Qed.

Lemma list_span (test : ascii → bool) (l : list ascii) :
  ∃ w l', l = w ++ l' ∧ Forall (λ c, test c = true) w
          ∧ (l' = [] ∨ ∃ c l'', l' = c :: l'' ∧ test c = false).
Proof.
  induction l as [|x l (w & l' & -> & Hw & Hl')].
  - exists [], []. split; [done|]. split; [constructor | by left].
  - destruct (test x) eqn:Hx.
    + exists (x :: w), l'. split; [done|]. split; [by constructor | done].
    + exists [], (x :: w ++ l'). split; [done|].
      split; [constructor | right; eauto].
Qed.

Section MatchPrefix.
Variable buf : list ascii.

Lemma tsMatch_loop_prefix pat d idx e :
  tsMatch_loop buf pat d idx = Ok e →
  match e with
  | MatchBreak true _ _ => take (length pat) (drop d buf) = pat
  | MatchBreak false d' idx' => d' - idx' = d - idx ∧ idx ≤ idx' ∧ d ≤ d'
  | MatchEnd d' =>
      ∃ k, k < length pat ∧ take k (drop d buf) = take k pat
           ∧ drop d buf !! k = Some NUL
  end.
Proof.
  revert d idx. induction pat as [|m pat IH]; intros d idx E; simpl in E.
  - injection E as <-. by rewrite take_0.
  - apply bind_Ok_inv in E as (c & Hc & E). apply load_Ok in Hc.
    rewrite (drop_lookup_cons _ _ _ Hc).
    destruct (is_nul c) eqn:Hn.
    { injection E as <-. apply is_nul_true in Hn. subst c.
      exists 0. simpl. split; [lia | done]. }
    destruct (decide (c = m)) as [->|Hne].
    + apply IH in E. destruct e as [[|] d' idx'|d'].
      * simpl. by rewrite E.
      * lia.
      * destruct E as (k & Hk & Et & En). exists (S k). simpl.
        split; [lia|]. by rewrite Et.
    + injection E as <-. lia.
Qed.
End MatchPrefix.

Section GapScan.
Context {abi : Abi}.
Variable content : list ascii.
Local Abbreviation buf := (input_block content).

Local Arguments tsMatch_loop : simpl never.
Local Arguments tsCopyWhile_loop : simpl never.
Local Arguments tsNext_loop : simpl never.
Local Arguments chars : simpl never.

Lemma tsNext_loop_gap fuel d o g rest found :
  gap g → drop d buf = g ++ rest →
  (∃ r, rest = NUL :: r ∧ found = 0%Z)
  ∨ (∃ r, rest = chars "SID(" ++ r ∧ found = 1%Z) →
  length g < fuel →
  tsNext_loop buf fuel d o = Ok (found, d + length g, puts g o).
Proof.
  revert d o g.
  induction fuel as [|fuel IH]; intros d o g Hg E Hstop Hf; [lia|].
  assert (∃ s r, rest = s :: r ∧ isspace s = false
                 ∧ (s = NUL ∨ isalnum s = true)) as (s & r & Hrest & Hss & Hs).
  { destruct Hstop as [(r & -> & _)|(r & -> & _)].
    - exists NUL, r. split; [done|]. split; [done | by left].
    - exists "S"%char, (chars "ID(" ++ r). split; [done|].
      split; [done | by right]. }
  assert (length buf - d = length g + length rest) as Hlen.
  { apply (f_equal length) in E. by rewrite length_drop, length_app in E. }
  assert (0 < length rest) as Hlr by (rewrite Hrest; simpl; lia).
  assert (d + length g ≤ length content) as Hdg.
  { rewrite block_length in Hlen. lia. }
  assert (∃ x, buf !! d = Some x) as [x Hx].
  { apply block_lookup. lia. }
  rewrite tsNext_loop_step, (proj2 (load_Ok _ _ _) Hx).
  cbn [mbind res_mbind res_bind].
  destruct (is_nul x) eqn:Hxn.
  { apply is_nul_true in Hxn. subst x.
    rewrite (drop_lookup_cons _ _ _ Hx) in E.
    destruct g as [|c g].
    - destruct Hstop as [(r' & -> & ->)|(r' & -> & _)]; [|done].
      by rewrite Nat.add_0_r.
    - destruct Hg as (Hn & _). apply Forall_cons in Hn as [Hn _].
      simplify_eq/=. }
  destruct (list_span isspace g) as (w & g1 & -> & Hw & Hg1).
  pose proof (gap_suffix _ _ Hg) as Hgap1.
  rewrite <- app_assoc in E.
  assert (∃ c1 t, g1 ++ rest = c1 :: t ∧ isspace c1 = false)
    as (c1 & t & Ec1 & Hc1s).
  { destruct Hg1 as [->|(c & l & -> & Hc)]; [|by eauto].
    exists s, r. by rewrite Hrest. }
  unfold tsSkipWhite_internal.
  rewrite Ec1 in E.
  rewrite (tsCopyWhile_loop_shape content isspace _ d o w c1 t E Hw Hc1s)
    by (rewrite length_app in Hlen; lia).
  cbn [mbind res_mbind res_bind].
  rewrite <- Ec1 in E. apply drop_app_shift in E.
  set (q := d + length w) in *. set (o1 := puts w o).
  assert (buf !! q = Some c1) as Hq.
  { rewrite Ec1 in E. by apply drop_cons_lookup in E as [? _]. }
  rewrite (proj2 (load_Ok _ _ _) Hq). cbn [mbind res_mbind res_bind].
  rewrite length_app, puts_app. fold o1.
  replace (d + (length w + length g1)) with (q + length g1) by (unfold q; lia).
  rewrite length_app in Hf, Hdg.
  destruct Hg1 as [->|(c & g2 & -> & Hc)].
  - (* the text ends in the whitespace *)
    simpl in Ec1. rewrite Nat.add_0_r. simpl in E.
    destruct Hstop as [(r' & -> & ->)|(r' & -> & ->)].
    + by simplify_eq/=.
    + change (chars "SID(" ++ r') with ("S"%char :: chars "ID(" ++ r') in Ec1.
      injection Ec1 as <- <-.
      change (is_nul "S") with false. change (isalnum "S") with true.
      cbn [negb]. cbv iota.
      rewrite (tsMatch_loop_holds buf (chars "SID(") q 0 r' E)
        by (repeat constructor; discriminate).
      cbn [mbind res_mbind res_bind]. cbv zeta iota.
      change (length (chars "SID(")) with 4.
      by replace (q + 4 - (0 + 4)) with q by lia.
  - simpl in Ec1. injection Ec1 as <- <-.
    assert (c ≠ NUL) as Hcn.
    { destruct Hgap1 as (Hn & _). by apply Forall_cons in Hn as [? _]. }
    rewrite (proj2 (is_nul_false c) Hcn).
    pose proof (gap_suffix [c] g2 Hgap1) as Hgap2.
    simpl in Hf, Hdg.
    destruct (isalnum c) eqn:Hal; cbn [negb]; cbv iota.
    + (* an alphanumeric run that is no trigger *)
      destruct (tsMatch_loop_spec content (chars "SID(") q 0) as (e & Em & _);
        [lia|].
      rewrite Em. cbn [mbind res_mbind res_bind].
      pose proof (tsMatch_loop_prefix _ _ _ _ _ Em) as Hp. rewrite E in Hp.
      destruct e as [[|] d2 idx2|d2].
      * exfalso. change (length (chars "SID(")) with 4 in Hp.
        apply (gap_no_prefix (c :: g2) rest 4 Hgap1); [done| |by left].
        by rewrite Hp.
      * destruct Hp as (Hsub & _ & _). cbv zeta iota.
        rewrite Hsub, Nat.sub_0_r.
        destruct (list_span isalnum (c :: g2)) as (a & g3 & Ea & Ha & Hg3).
        destruct Hg3 as [->|(c3 & g4 & -> & Hc3)].
        { exfalso. rewrite app_nil_r in Ea. subst a.
          destruct Hgap1 as (_ & _ & Hl).
          destruct (last (c :: g2)) as [z|] eqn:Hz;
            [|by apply last_None in Hz].
          pose proof Hz as Hz'. apply last_Some in Hz' as [l' El].
          rewrite El in Ha. apply Forall_app in Ha as [_ Ha].
          apply Forall_cons in Ha as [Ha _].
          rewrite (Hl z eq_refl) in Ha. discriminate. }
        rewrite Ea in E, Hgap1. rewrite <- app_assoc in E.
        unfold tsCopyAlnum.
        assert (length (c :: g2) = length a + S (length g4)) as Hl2.
        { by rewrite Ea, length_app. }
        simpl in Hl2.
        rewrite (tsCopyWhile_loop_shape content isalnum _ q o1 a c3
                   (g4 ++ rest) E Ha Hc3)
          by (rewrite block_length; lia).
        cbn [mbind res_mbind res_bind].
        assert (a ≠ []) as Hane.
        { intros ->. simpl in Ea. injection Ea as -> _. congruence. }
        assert (0 < length a) by (destruct a; [done | simpl; lia]).
        rewrite (IH (q + length a) (puts a o1) (c3 :: g4)).
        -- rewrite Ea, puts_app, length_app. do 3 f_equal. lia.
        -- by apply gap_suffix in Hgap1.
        -- by apply drop_app_shift in E.
        -- done.
        -- simpl. lia.
      * exfalso. destruct Hp as (k & Hk & Et & En).
        change (length (chars "SID(")) with 4 in Hk.
        apply (gap_no_prefix (c :: g2) rest k Hgap1); [done | done |].
        right. split; [|done].
        destruct (decide (length (c :: g2) ≤ k)) as [|Hgt]; [done|].
        rewrite lookup_app_l in En by lia.
        destruct Hgap1 as (Hn & _).
        by destruct (Forall_lookup_1 _ _ _ _ Hn En).
    + rewrite (IH (S q) (putc c o1) g2).
      * rewrite puts_cons. do 3 f_equal. simpl. lia.
      * done.
      * by apply (drop_app_shift _ q [c]) in E;
          replace (q + length [c]) with (S q) in E by (simpl; lia).
      * done.
      * lia.
Qed.
End GapScan.

(** ** A file of well-formed invocations *)

Lemma no_trigger_app a b :
  no_trigger a → no_trigger b →
  (∀ c, last a = Some c → c ∉ chars "SID")
  ∨ (∀ c, head b = Some c → c ∉ chars "ID(") →
  no_trigger (a ++ b).
Proof.
  intros Ha Hb Hj pre post E.
  apply app_eq_inv in E as [(k & Ea & Ek)|(k & -> & ->)].
  - destruct k as [|k1 [|k2 [|k3 [|k4 k]]]]; simplify_eq/=.
    + by apply (Hb [] post).
    + destruct Hj as [Hj|Hj].
      * apply (Hj "S"%char); [by rewrite last_snoc | set_solver].
      * apply (Hj "I"%char); [done | set_solver].
    + destruct Hj as [Hj|Hj].
      * apply (Hj "I"%char).
        -- by rewrite (last_app_cons pre ["I"%char] "S"%char).
        -- set_solver.
      * apply (Hj "D"%char); [done | set_solver].
    + destruct Hj as [Hj|Hj].
      * apply (Hj "D"%char).
        -- by rewrite (last_app_cons pre ["I"; "D"]%char "S"%char).
        -- set_solver.
      * apply (Hj "("%char); [done | set_solver].
    + by apply (Ha pre k).
  - by apply (Hb k post).
Qed.

Lemma lower_hex_not_S c : lower_hex c → c ≠ "S"%char.
Proof.
  intros Hc ->. unfold lower_hex in Hc.
  change (code "S") with 83 in Hc. lia.
Qed.

Lemma replacement_no_trigger h lit :
  no_trigger lit → no_trigger (replacement h lit).
Proof.
  intros Hlit.
  assert (replacement h lit
          = (chars "0x" ++ hex8 h ++ chars " /* " ++ [DQUOTE])
              ++ lit ++ (DQUOTE :: chars " */")) as ->.
  { unfold replacement. by rewrite <- !app_assoc. }
  apply no_trigger_app.
  - apply no_trigger_none. rewrite !Forall_app.
    split; [by repeat constructor|]. split; [|by repeat constructor].
    eapply Forall_impl; [apply hex8_lower|]. apply lower_hex_not_S.
  - apply no_trigger_app; [done | by apply no_trigger_none; repeat constructor|].
    right. intros c [= <-].
    cbn [chars]. rewrite !not_elem_of_cons.
    repeat split; (done || apply not_elem_of_nil).
  - left. intros c. rewrite !app_assoc, last_snoc. intros [= <-].
    cbn [chars]. rewrite !not_elem_of_cons.
    repeat split; (done || apply not_elem_of_nil).
Qed.

Lemma replacement_last h lit : last (replacement h lit) = Some "/"%char.
Proof.
  unfold replacement. change (chars "*/") with ([ "*" ] ++ [ "/" ])%char.
  by rewrite !app_assoc, last_snoc.
Qed.

Lemma gap_last_not_trigger g c :
  gap g → last g = Some c → c ∉ chars "SID".
Proof.
  intros (_ & _ & Hl) Hc Hin. apply Hl in Hc.
  set_unfold in Hin. destruct Hin as [->|[->|[->|[]]]]; discriminate.
Qed.

Lemma invocation_text_app i rest :
  invocation_text i ++ rest
  = chars "SID(" ++ inv_lead i ++ DQUOTE :: inv_literal i
      ++ DQUOTE :: inv_trail i ++ RPAREN :: rest.
Proof.
  unfold invocation_text.
  repeat (rewrite <- ?app_assoc, <- ?app_comm_cons; simpl; f_equal).
Qed.

Lemma invocation_text_length i :
  length (invocation_text i)
  = 4 + length (inv_lead i) + 1 + length (inv_literal i) + 1
    + length (inv_trail i) + 1.
Proof.
  unfold invocation_text. rewrite !length_app. simpl.
  rewrite !length_app. simpl. rewrite !length_app. simpl. lia.
Qed.

Section Pieces.
Context {abi : Abi}.
Variable content : list ascii.
Variable path : string.
Local Abbreviation buf := (input_block content).

Lemma tsNext_internal_gap d o g rest found :
  gap g → drop d buf = g ++ rest →
  (∃ r, rest = NUL :: r ∧ found = 0%Z)
  ∨ (∃ r, rest = chars "SID(" ++ r ∧ found = 1%Z) →
  tsNext_internal buf d o = Ok (found, d + length g, puts g o).
Proof.
  intros Hg E Hstop. unfold tsNext_internal.
  apply tsNext_loop_gap with (rest := rest); [done..|].
  apply (f_equal length) in E. rewrite length_drop, length_app in E. lia.
Qed.

Lemma tsBody_piece p o i rest :
  well_formed i → drop p buf = invocation_text i ++ rest →
  ∃ o',
    tsBody buf path p o = Ok (inr (p + length (invocation_text i), o'))
    ∧ cells o'
      = cells o
        ++ (Some <$> replacement (hash_fold int_of_char (inv_literal i))
                                 (inv_literal i))
    ∧ peak o'
      = peak o `max` (length (cells o)
                      + S (length (replacement
                                     (hash_fold int_of_char (inv_literal i))
                                     (inv_literal i)))).
Proof.
  intros (Hl & Ht & Hraw & Hnul) E. rewrite invocation_text_app in E.
  apply (drop_app_shift _ p (chars "SID(")) in E.
  change (length (chars "SID(")) with 4 in E.
  rewrite (tsBody_literal buf path p o _ _ _ _ _ E Hl Hraw Ht eq_refl).
  rewrite decide_False by (intros Hne; by apply Hne).
  eexists. split; [|split].
  - do 3 f_equal. rewrite invocation_text_length. lia.
  - rewrite until_nul_id, fold_djb2_step by done.
    rewrite <- sid_text_length
      with (h := hash_fold int_of_char (inv_literal i)).
    apply print_advance_exact.
  - rewrite print_advance_peak, until_nul_id, fold_djb2_step by done. done.
Qed.

Lemma source_length pieces rest :
  length pieces ≤ length (source pieces rest).
Proof.
  induction pieces as [|[g i] pieces IH]; cbn [source length]; [lia|].
  rewrite !length_app, invocation_text_length. lia.
Qed.

Lemma tsPreprocess_loop_pieces pieces rest fuel d o m :
  Forall (λ p, gap p.1 ∧ well_formed p.2) pieces → gap rest →
  drop d buf = source pieces rest ++ [NUL] → length pieces < fuel →
  ∃ o',
    tsPreprocess_loop buf path fuel d o m
    = Ok (inr (o', if pieces is [] then m else true))
    ∧ cells o' = cells o ++ (Some <$> rewritten pieces rest)
    ∧ peak o'
      ≤ peak o `max` (length (cells o) + S (length (rewritten pieces rest))).
Proof.
  revert fuel d o m.
  induction pieces as [|[g i] pieces IH]; intros fuel d o m Hp Hr E Hf;
    (destruct fuel as [|fuel]; [lia|]); rewrite tsPreprocess_loop_S;
    cbn [source] in E.
  - rewrite (tsNext_internal_gap d o rest [NUL] 0%Z Hr E) by (left; eauto).
    cbn [mbind res_mbind res_bind]. rewrite decide_True by done.
    eexists. split; [done|]. split; [apply puts_cells|].
    etrans; [apply puts_peak|]. simpl. lia.
  - apply Forall_cons in Hp as [[Hg Hi] Hp]. simpl in Hg, Hi.
    rewrite <- !app_assoc, invocation_text_app in E.
    rewrite (tsNext_internal_gap d o g _ 1%Z Hg E) by (right; eauto).
    cbn [mbind res_mbind res_bind]. rewrite decide_False by done.
    apply drop_app_shift in E.
    destruct (tsBody_piece (d + length g) (puts g o) i
                (source pieces rest ++ [NUL]) Hi)
      as (o2 & -> & Hc2 & Hp2).
    { by rewrite E, invocation_text_app. }
    cbn [mbind res_mbind res_bind].
    assert (drop (d + length g + length (invocation_text i)) buf
            = source pieces rest ++ [NUL]) as E2.
    { apply drop_app_shift. by rewrite E, invocation_text_app. }
    simpl in Hf.
    destruct (IH fuel _ o2 true Hp Hr E2) as (o' & -> & Hc' & Hp'); [lia|].
    exists o'. split; [by destruct pieces|].
    rewrite Hc', Hc2, puts_cells. cbn [rewritten].
    split; [by rewrite !fmap_app, <- !app_assoc|].
    etrans; [exact Hp'|]. rewrite Hp2, Hc2, puts_cells.
    pose proof (puts_peak g o) as Hpg.
    rewrite !length_app, !length_fmap. lia.
Qed.
End Pieces.

Lemma rewritten_no_trigger `{Abi} pieces rest :
  Forall (λ p, gap p.1 ∧ no_trigger (inv_literal p.2)) pieces → gap rest →
  no_trigger (rewritten pieces rest).
Proof.
  intros Hp Hr. induction pieces as [|[g i] pieces IH]; cbn [rewritten].
  - by destruct Hr as (_ & ? & _).
  - apply Forall_cons in Hp as [[Hg Hi] Hp]. simpl in Hg, Hi.
    apply no_trigger_app.
    + by destruct Hg as (_ & ? & _).
    + apply no_trigger_app; [by apply replacement_no_trigger | by apply IH |].
      left. intros c. rewrite replacement_last. intros [= <-].
      cbn [chars]. rewrite !not_elem_of_cons.
    repeat split; (done || apply not_elem_of_nil).
    + left. intros c. by apply gap_last_not_trigger.
Qed.

(** X12.  Over text that holds no NUL and no trigger and does not end in
    an alphanumeric byte, [tsNext_internal] copies every byte and stops
    behind it: with 1 and the cursor at the trigger when the trigger
    follows the text, with 0 and the cursor at the NUL when a NUL
    follows it. *)
Theorem tsNext_internal_over_gap (content : list ascii) (d : nat)
  (o : outbuf) (g rest : list ascii) :
  gap g → drop d (input_block content) = g ++ rest →
  (∀ r, rest = chars "SID(" ++ r →
        tsNext_internal (input_block content) d o
        = Ok (1%Z, d + length g, puts g o))
  ∧ (∀ r, rest = NUL :: r →
          tsNext_internal (input_block content) d o
          = Ok (0%Z, d + length g, puts g o)).
Proof.
  intros Hg E. split; intros r ->.
  - apply (tsNext_internal_gap content d o g _ 1%Z Hg E). right. eauto.
  - apply (tsNext_internal_gap content d o g _ 0%Z Hg E). left. eauto.
Qed.

Lemma tsNext_internal_over_gap_witness :
  let content := chars "a; if (b) SID(x)" in
  gap (chars " if (b) ")
  ∧ tsNext_internal (input_block content) 2 (puts (chars "a;") out_start)
    = Ok (1%Z, 10, puts (chars "a; if (b) ") out_start).
Proof.
  intros content.
  assert (gap (chars " if (b) ")) as Hg.
  { split; [|split].
    - repeat constructor; discriminate.
    - apply has_trigger_false. reflexivity.
    - intros c [= <-]. reflexivity. }
  split; [exact Hg|].
  exact (proj1 (tsNext_internal_over_gap content 2
                  (puts (chars "a;") out_start) (chars " if (b) ")
                  (chars "SID(x)" ++ [NUL]) Hg eq_refl)
           (chars "x)" ++ [NUL]) eq_refl).
Defined.

(** X13.  A file of fewer than 2^30 bytes that is a sequence of well-formed
    invocations, each after text that holds no NUL and no trigger and does
    not end in an alphanumeric byte, and such text behind the last, and
    whose rewritten form with one more byte fits the output block:
    [tsPreprocess] returns 1, prints nothing, and writes to [out_path]
    (the [fopen] of which is taken to succeed) the file with every
    invocation replaced by 0x, the eight digits of the hash of its literal,
    and the literal in a comment, all other bytes kept.  The stores of the
    run stay inside the output block. *)
Theorem tsPreprocess_rewrites `{Abi} (fs : gmap string (list ascii))
  (path out_path : string) (pieces : list (list ascii * invocation))
  (rest : list ascii) :
  pieces ≠ [] → Forall (λ p, gap p.1 ∧ well_formed p.2) pieces → gap rest →
  fs !! path = Some (source pieces rest) →
  int_size (source pieces rest) →
  length (rewritten pieces rest) < capacity (source pieces rest) →
  tsPreprocess_int fs path out_path
  = Ok {| returned := 1;
          files := <[out_path := rewritten pieces rest]> fs;
          printed := [] |}
  ∧ ∃ o, tsScan path (source pieces rest) = Ok (inr (o, true))
         ∧ cells o = (Some <$> rewritten pieces rest)
         ∧ in_block (source pieces rest) o.
Proof.
  intros Hne Hp Hr Hfs Hsize Hfit.
  destruct (tsPreprocess_loop_pieces (source pieces rest) path pieces rest
              (S (length (input_block (source pieces rest)))) 0 out_start
              false Hp Hr)
    as (o & E & Hc & Hpk).
  { done. }
  { rewrite block_length. pose proof (source_length pieces rest). lia. }
  assert (tsScan path (source pieces rest) = Ok (inr (o, true))) as Escan.
  { unfold tsScan. rewrite E. by destruct pieces. }
  simpl in Hc, Hpk. split.
  - rewrite (tsPreprocess_int_fits _ _ _ _ Hfs Hsize).
    by eapply tsPreprocess_written.
  - exists o. split; [done|]. split; [done|]. unfold in_block. lia.
Qed.

Lemma tsPreprocess_rewrites_witness :
  let x := {| inv_lead := chars " "; inv_literal := chars "x";
              inv_trail := chars " " |} in
  let yz := {| inv_lead := []; inv_literal := chars "yz"; inv_trail := [] |} in
  let pieces := [(chars "a = ", x); (chars "; b = ", yz)] in
  let fs : gmap string (list ascii) := {[ "a.c" := source pieces (chars ";") ]} in
  source pieces (chars ";")
  = chars "a = SID( " ++ [DQUOTE] ++ chars "x" ++ [DQUOTE]
      ++ chars " ); b = SID(" ++ [DQUOTE] ++ chars "yz" ++ [DQUOTE]
      ++ chars ");"
  ∧ int_size (source pieces (chars ";"))
  ∧ length (rewritten (H := x86_64) pieces (chars ";"))
    < capacity (source pieces (chars ";"))
  ∧ tsPreprocess_int (H := x86_64) fs "a.c" "b.c"
    = Ok {| returned := 1;
            files := <["b.c" :=
                         chars "a = 0x0002b61d /* " ++ [DQUOTE] ++ chars "x"
                           ++ [DQUOTE] ++ chars " */; b = 0x00597a58 /* "
                           ++ [DQUOTE] ++ chars "yz" ++ [DQUOTE]
                           ++ chars " */;"]> fs;
            printed := [] |}.
Proof.
  intros x yz pieces fs. split; [reflexivity|].
  assert (∀ s, has_trigger s = false → Forall (λ c, c ≠ NUL) s →
               (∀ c, last s = Some c → isalnum c = false) → gap s) as Hgap.
  { intros s Ht Hn Hl. split; [done|]. split; [|done].
    by apply has_trigger_false. }
  assert (Forall (λ p, gap p.1 ∧ well_formed p.2) pieces) as Hp.
  { apply Forall_cons. split; [|apply Forall_cons; split; [|constructor]].
    - split.
      + apply Hgap; [reflexivity | repeat constructor; discriminate |
                     intros c [= <-]; reflexivity].
      + split; [by repeat constructor|]. split; [by repeat constructor|].
        split; [|by repeat constructor].
        apply raw_byte; [discriminate..|apply raw_nil].
    - split.
      + apply Hgap; [reflexivity | repeat constructor; discriminate |
                     intros c [= <-]; reflexivity].
      + split; [constructor|]. split; [constructor|].
        split; [|by repeat constructor].
        do 2 (apply raw_byte; [discriminate..|]). apply raw_nil. }
  assert (gap (chars ";")) as Hr.
  { apply Hgap; [reflexivity | repeat constructor; discriminate |
                 intros c [= <-]; reflexivity]. }
  assert (pieces ≠ []) as Hne by discriminate.
  assert (int_size (source pieces (chars ";"))) as Hsize by (by vm_compute).
  assert (length (rewritten (H := x86_64) pieces (chars ";"))
          < capacity (source pieces (chars ";"))) as Hfit
    by (vm_compute; lia).
  split; [exact Hsize|]. split; [exact Hfit|].
  exact (proj1 (tsPreprocess_rewrites (H := x86_64) fs "a.c" "b.c" pieces
                  (chars ";") Hne Hp Hr (lookup_singleton_eq _ _) Hsize
                  Hfit)).
Defined.

(** X14.  The preprocessor can be run over its own output: for a file as
    in X13 whose literals do not hold the trigger and whose rewritten form
    has fewer than 2^30 bytes, the file written holds no trigger, and a
    call of [tsPreprocess] on it returns 0, prints nothing and changes no
    file; the stores of both runs stay inside their output blocks. *)
Theorem tsPreprocess_twice `{Abi} (fs : gmap string (list ascii))
  (path out_path : string) (pieces : list (list ascii * invocation))
  (rest : list ascii) :
  pieces ≠ [] →
  Forall (λ p, gap p.1 ∧ well_formed p.2 ∧ no_trigger (inv_literal p.2))
         pieces →
  gap rest → fs !! path = Some (source pieces rest) →
  int_size (source pieces rest) →
  length (rewritten pieces rest) < capacity (source pieces rest) →
  int_size (rewritten pieces rest) →
  ∃ e,
    tsPreprocess_int fs path out_path = Ok e ∧ returned e = 1%Z
    ∧ files e !! out_path = Some (rewritten pieces rest)
    ∧ no_trigger (rewritten pieces rest)
    ∧ (∃ o, tsScan path (source pieces rest) = Ok (inr (o, true))
            ∧ in_block (source pieces rest) o)
    ∧ (∃ o, tsScan out_path (rewritten pieces rest) = Ok (inr (o, false))
            ∧ in_block (rewritten pieces rest) o)
    ∧ ∀ out2,
        tsPreprocess_int (files e) out_path out2
        = Ok {| returned := 0; files := files e; printed := [] |}.
Proof.
  intros Hne Hp Hr Hfs Hsize Hfit Hsize2.
  assert (Forall (λ p, gap p.1 ∧ well_formed p.2) pieces) as Hp1.
  { eapply Forall_impl; [exact Hp|]. intros p (? & ? & ?). done. }
  assert (Forall (λ p, gap p.1 ∧ no_trigger (inv_literal p.2)) pieces) as Hp2.
  { eapply Forall_impl; [exact Hp|]. intros p (? & ? & ?). done. }
  destruct (tsPreprocess_loop_pieces (source pieces rest) path pieces rest
              (S (length (input_block (source pieces rest)))) 0 out_start
              false Hp1 Hr)
    as (o & E & Hc & Hpk).
  { done. }
  { rewrite block_length. pose proof (source_length pieces rest). lia. }
  assert (tsScan path (source pieces rest) = Ok (inr (o, true))) as Escan.
  { unfold tsScan. rewrite E. by destruct pieces. }
  simpl in Hc, Hpk.
  pose proof (rewritten_no_trigger pieces rest Hp2 Hr) as Hno.
  destruct (tsScan_untriggered_block out_path _ Hno) as (o' & Eo & Hb').
  eexists. split.
  { rewrite (tsPreprocess_int_fits _ _ _ _ Hfs Hsize).
    by eapply tsPreprocess_written. }
  simpl. split; [done|]. split; [apply lookup_insert_eq|]. split; [done|].
  split; [exists o; split; [done|]; unfold in_block; lia|].
  split; [by exists o'|].
  intros out2.
  rewrite (tsPreprocess_int_fits _ _ _ (rewritten pieces rest))
    by (done || apply lookup_insert_eq).
  unfold tsPreprocess. rewrite lookup_insert_eq, Eo. done.
Qed.

Lemma tsPreprocess_twice_witness :
  let x := {| inv_lead := []; inv_literal := chars "x"; inv_trail := [] |} in
  let pieces := [(chars "a = ", x)] in
  let fs : gmap string (list ascii) := {[ "a.c" := source pieces (chars ";") ]} in
  ∃ e,
    tsPreprocess_int (H := x86_64) fs "a.c" "a.c" = Ok e ∧ returned e = 1%Z
    ∧ tsPreprocess_int (H := x86_64) (files e) "a.c" "a.c"
      = Ok {| returned := 0; files := files e; printed := [] |}.
Proof.
  intros x pieces fs.
  assert (∀ s, has_trigger s = false → Forall (λ c, c ≠ NUL) s →
               (∀ c, last s = Some c → isalnum c = false) → gap s) as Hgap.
  { intros s Ht Hn Hl. split; [done|]. split; [|done].
    by apply has_trigger_false. }
  assert (Forall (λ p, gap p.1 ∧ well_formed p.2
                       ∧ no_trigger (inv_literal p.2)) pieces) as Hp.
  { apply Forall_cons. split; [|constructor]. split; [|split].
    - apply Hgap; [reflexivity | repeat constructor; discriminate |
                   intros c [= <-]; reflexivity].
    - split; [constructor|]. split; [constructor|].
      split; [|by repeat constructor].
      apply raw_byte; [discriminate..|apply raw_nil].
    - apply has_trigger_false. reflexivity. }
  assert (gap (chars ";")) as Hr.
  { apply Hgap; [reflexivity | repeat constructor; discriminate |
                 intros c [= <-]; reflexivity]. }
  assert (pieces ≠ []) as Hne by discriminate.
  assert (int_size (source pieces (chars ";"))) as Hsize by (by vm_compute).
  assert (length (rewritten (H := x86_64) pieces (chars ";"))
          < capacity (source pieces (chars ";"))) as Hfit
    by (vm_compute; lia).
  assert (int_size (rewritten (H := x86_64) pieces (chars ";"))) as Hsize2
    by (by vm_compute).
  destruct (tsPreprocess_twice (H := x86_64) fs "a.c" "a.c" pieces (chars ";")
              Hne Hp Hr (lookup_singleton_eq _ _) Hsize Hfit Hsize2)
    as (e & E1 & Hret & _ & _ & _ & _ & E2).
  exists e. split; [exact E1|]. split; [exact Hret|]. apply E2.
Defined.
